(** * A private blockchain of star registrations: [blockchain.js]

    A shallow embedding of the [Blockchain] class of [src/blockchain.js] and
    the properties of its operations.

    Conventions of the embedding.
    - A JavaScript [null] is [None]; a string is a [string]; the integers the
      class computes with ([height], parsed timestamps) are in [Z], and
      [NaN] is [None].  Rounding of numbers beyond 2^53 is not modelled.
    - A promise is modelled by the way it settles, [Resolved v] or
      [Rejected e]; the same type describes a synchronous call that returns
      or throws.
    - The operations that write ([_addBlock], [initializeChain],
      [submitStar], the constructor) are run to completion, one call after
      the other: each is a function from the state of the object before the
      call to the way its promise settles and the state after it.  The only
      place where an append can be suspended is the [await] of line 94, on a
      value that is no promise; it resumes before any later request of the
      event loop is served.  These functions describe a call that runs
      while no other append is waiting.  Appends started in the same
      synchronous run overlap: they are described separately, with the
      calls stopped at that [await] ([addBlock_start], [addBlock_resume]).
    - The two operations that start asynchronous work and resolve without
      waiting for it ([getStarsByWalletAddress], [validateChain]) are
      modelled with the array they share with that work and the queue of
      jobs that are still pending when [resolve] is called. *)

From Stdlib Require Import List String Ascii ZArith NArith Bool Lia.
From Stdlib Require Import DecimalString.
From Stdlib Require DecimalFacts DecimalPos.
Import ListNotations.

Local Open Scope string_scope.
Local Open Scope list_scope.
Local Open Scope Z_scope.

Set Implicit Arguments.

(** ** Settled promises, returned and thrown values *)

Inductive settled (A : Type) : Type :=
| Resolved (value : A)
| Rejected (error : string).

Arguments Resolved {A} value.
Arguments Rejected {A} error.

Definition is_resolved {A} (p : settled A) : bool :=
  match p with Resolved _ => true | Rejected _ => false end.

(** ** The JavaScript string functions the class calls *)

Module JS.

(** [n.toString()] for a non-negative integer. *)
Definition toString (n : N) : string :=
  NilZero.string_of_uint (N.to_uint n).

(** [s.slice(0, -3)]: everything but the last three characters. *)
Definition slice_0_minus3 (s : string) : string :=
  string_of_list_ascii
    (firstn (List.length (list_ascii_of_string s) - 3)
            (list_ascii_of_string s)).

(** [s.split(c)] for a one-character separator: never the empty list. *)
Fixpoint split (c : ascii) (s : string) : list string :=
  match s with
  | EmptyString => [EmptyString]
  | String a rest =>
      if Ascii.eqb a c then EmptyString :: split c rest
      else match split c rest with
           | field :: fields => String a field :: fields
           | [] => [String a EmptyString]
           end
  end.

Definition is_white_space (a : ascii) : bool :=
  let n := nat_of_ascii a in
  ((n =? 32) || (n =? 9) || (n =? 10) || (n =? 11) || (n =? 12) || (n =? 13))%nat.

Fixpoint trim_start (s : string) : string :=
  match s with
  | String a rest => if is_white_space a then trim_start rest else s
  | EmptyString => s
  end.

(** The value of a character as a digit of the given radix. *)
Definition digit_value (radix : Z) (a : ascii) : option Z :=
  let n := Z.of_nat (nat_of_ascii a) in
  let v := if (48 <=? n) && (n <=? 57) then Some (n - 48)
           else if (97 <=? n) && (n <=? 122) then Some (n - 87)
           else if (65 <=? n) && (n <=? 90) then Some (n - 55)
           else None in
  match v with
  | Some d => if d <? radix then Some d else None
  | None => None
  end.

(** The longest prefix of digits, read in the radix; [None] when the
    prefix is empty. *)
Fixpoint digits (radix : Z) (acc : option Z) (s : string) : option Z :=
  match s with
  | EmptyString => acc
  | String a rest =>
      match digit_value radix a with
      | Some d =>
          digits radix (Some (radix * match acc with Some v => v | None => 0 end + d)) rest
      | None => acc
      end
  end.

(** [parseInt(s)] without a radix argument: leading white space, a sign,
    an optional [0x] prefix, then the digits; [None] is [NaN].  The result
    is the integer the digits denote; JavaScript gives that integer up to
    2^53 and rounds it beyond, so the properties of the values read are
    stated below 2^53. *)
Definition parseInt (s : string) : option Z :=
  let s := trim_start s in
  let '(sign, s) :=
    match s with
    | String "-" rest => (-1, rest)
    | String "+" rest => (1, rest)
    | _ => (1, s)
    end in
  let '(radix, s) :=
    match s with
    | String "0" (String "x" rest) => (16, rest)
    | String "0" (String "X" rest) => (16, rest)
    | _ => (10, s)
    end in
  option_map (Z.mul sign) (digits radix None s).

(** [parseInt(undefined)] converts its argument to the string
    ["undefined"] first. *)
Definition parseInt_opt (s : option string) : option Z :=
  match s with
  | Some s => parseInt s
  | None => parseInt "undefined"
  end.

(** Subtraction of numbers, with [NaN] absorbing. *)
Definition minus (a b : option Z) : option Z :=
  match a, b with
  | Some x, Some y => Some (x - y)
  | _, _ => None
  end.

(** The values a property lookup on an array can give. *)
Inductive value : Type :=
| undefined
| number (n : Z).

(** [a.name] for an array [a] of the given length and a property name
    that is neither an index nor a method of arrays: the only own
    property of that kind is [length]. *)
Definition array_property (len : nat) (name : string) : value :=
  if String.eqb name "length" then number (Z.of_nat len) else undefined.

(** [v === n] for a number literal [n]. *)
Definition strict_equal_number (v : value) (n : Z) : bool :=
  match v with
  | number m => m =? n
  | undefined => false
  end.

(** [a != b] for two values that are each [null] or a string. *)
Definition not_equal (a b : option string) : bool :=
  match a, b with
  | None, None => false
  | Some x, Some y => negb (String.eqb x y)
  | _, _ => true
  end.

End JS.

(** ** The data model *)

(** A star as a client submits it. *)
Record Star : Type := mkStar { dec : string; ra : string; story : string }.

(** The two kinds of object a block is made from:
    [{ data: 'Genesis Block' }] and [{ "owner": address, "star": star }]. *)
Inductive Data : Type :=
| DataObject (data : string)
| StarObject (owner : string) (star : Star).

(** [d.owner]: [undefined] ([None]) on an object without that property. *)
Definition owner_of (d : Data) : option string :=
  match d with
  | StarObject owner _ => Some owner
  | DataObject _ => None
  end.

(** [d.owner === address] *)
Definition owner_is (address : string) (d : Data) : bool :=
  match owner_of d with
  | Some owner => String.eqb owner address
  | None => false
  end.

(** The body codec, an external collaborator: the form in which a block
    stores its data, and the pair of functions between the two. *)
Class BodyCodec : Type := {
  Stored : Type;
  encode : Data -> Stored;
  decode : Stored -> Data;
  decode_encode : forall x, decode (encode x) = x
}.

(** ** The block entity, [block.js] *)

Module BlockClass.
Section WithCodec.

Context `{BodyCodec}.

(** The five fields the chain reads and writes on a block. *)
Record Block : Type := mkBlock {
  hash : option string;
  height : Z;
  body : Stored;
  time : string;
  previousBlockHash : option string
}.

Definition set_hash (v : option string) (b : Block) : Block :=
  mkBlock v (height b) (body b) (time b) (previousBlockHash b).

Definition set_height (v : Z) (b : Block) : Block :=
  mkBlock (hash b) v (body b) (time b) (previousBlockHash b).

Definition set_time (v : string) (b : Block) : Block :=
  mkBlock (hash b) (height b) (body b) v (previousBlockHash b).

Definition set_previousBlockHash (v : option string) (b : Block) : Block :=
  mkBlock (hash b) (height b) (body b) (time b) v.

(** Modelled from the spec: the constructor of [block.js], which is not
    among the sources.  A block is created in memory with its body set
    from the data (encoded), no hash and no previous hash; its height and
    time are assigned only when it is appended, and are placeholders until
    then. *)
Definition new_Block (data : Data) : Block :=
  mkBlock None 0 (encode data) "0" None.

Section Methods.

(** The digest of the serialised block: [SHA256(JSON.stringify(block))]. *)
Variable digest : Block -> string.

(** Modelled from the spec: [validate] of [block.js], which is not among
    the sources.  It recomputes the digest from the current field values,
    the hash field left out, and compares it to the stored hash; the
    outcome is a boolean, and a mismatch is not raised. *)
Definition validate (b : Block) : settled bool :=
  Resolved (match hash b with
            | Some h => String.eqb (digest (set_hash None b)) h
            | None => false
            end).

(** Modelled from the spec: [getBData] of [block.js], which is not among
    the sources ([decodeBody] in the spec).  It gives the data the body
    was made from: the marker for the genesis block, the owner and star
    for a registration. *)
Definition getBData (b : Block) : settled Data :=
  Resolved (decode (body b)).

End Methods.

End WithCodec.
End BlockClass.

Abbreviation Block := BlockClass.Block.

(** ** The external collaborators of the chain *)

Class Collaborators `{BodyCodec} : Type := {
  (** [SHA256(JSON.stringify(block)).toString()] *)
  SHA256_JSON : Block -> string;
  (** [bitcoinMessage.verify(message, address, signature)]: returns a
      boolean, or throws on a malformed argument. *)
  verify : string -> string -> string -> settled bool;
  (** [new Date().getTime()]: the [n]-th reading of the clock since the
      process started, in milliseconds since the epoch. *)
  getTime : nat -> N
}.

(** ** The chain store *)

(** The two fields of a [Blockchain] object. *)
Record Blockchain `{BodyCodec} : Type := mkBlockchain {
  chain : list Block;
  height : Z
}.

(** The object together with the number of clock readings taken so far. *)
Record World `{BodyCodec} : Type := mkWorld {
  self : Blockchain;
  readings : nat
}.

(** An operation: from the world before the call to the way the call
    settles and the world after it.  A throw leaves the writes made before
    it in place, as in JavaScript. *)
Definition Op `{BodyCodec} (A : Type) : Type := World -> settled A * World.

Section Monad.

Context `{BodyCodec}.

Definition ret {A} (a : A) : Op A := fun w => (Resolved a, w).

Definition throw {A} (e : string) : Op A := fun w => (Rejected e, w).

Definition bind {A B} (m : Op A) (k : A -> Op B) : Op B :=
  fun w =>
    match m w with
    | (Resolved a, w') => k a w'
    | (Rejected e, w') => (Rejected e, w')
    end.

(** A call whose promise is dropped: neither awaited nor observed. *)
Definition detached {A} (m : Op A) : Op unit :=
  fun w => (Resolved tt, snd (m w)).

(** A value that was computed by a call that may have thrown. *)
Definition lift {A} (r : settled A) : Op A := fun w => (r, w).

Definition get_self : Op Blockchain := fun w => (Resolved (self w), w).

Definition put_self (bc : Blockchain) : Op unit :=
  fun w => (Resolved tt, mkWorld bc (readings w)).

End Monad.

Declare Scope op_scope.
Delimit Scope op_scope with op.
Notation "x <- m ;; k" := (bind m (fun x => k))
  (at level 100, m at next level, right associativity) : op_scope.
Notation "m ;; k" := (bind m (fun _ => k))
  (at level 100, right associativity) : op_scope.

(** The array a call fills and resolves with, as it stands when [resolve]
    is called, and the jobs that are still waiting to run at that moment.
    The promise resolves with the array itself, so that what the jobs push
    later lands in the same object. *)
Record Unjoined (E J : Type) : Type := mkUnjoined {
  at_resolve : list E;
  pending : list J
}.

(** An entry of the error log of [validateChain]: an error caught from a
    block's [validate], or the two-element array pushed for a broken link,
    whose second element is the method [block.height.toString] itself (the
    source does not call it). *)
Inductive LogEntry : Type :=
| Caught (error : string)
| Inconsistent (text : string) (method : string).

Section BlockchainClass.

Context `{Collaborators}.

(** [new Date().getTime()] *)
Definition Date_getTime : Op N :=
  fun w => (Resolved (getTime (readings w)), mkWorld (self w) (S (readings w))).

(** [t.toString().slice(0, -3)] for a clock reading [t]. *)
Definition seconds_string (t : N) : string :=
  JS.slice_0_minus3 (JS.toString t).

(** [a.at(-1)] *)
Definition at_minus1 {A} (a : list A) : option A :=
  nth_error a (List.length a - 1).

(** [_addBlock(block)], lines 83-111, for a call that runs while no other
    append is waiting.  The block is the caller's object, written field by
    field; the chain and the height are written last.  The same call cut at
    its [await] is [addBlock_start] followed by [addBlock_resume]. *)
Definition _addBlock (block : Block) : Op Block :=
  (bc <- get_self ;;
   let updated_height := height bc + 1 in
   let block := BlockClass.set_height updated_height block in
   block <- (if height bc >? 0
             then match at_minus1 (chain bc) with
                  | Some last => ret (BlockClass.set_previousBlockHash (BlockClass.hash last) block)
                  | None => throw "TypeError: Cannot read properties of undefined (reading 'hash')"
                  end
             else ret block) ;;
   t <- Date_getTime ;;
   let block := BlockClass.set_time (seconds_string t) block in
   let block := BlockClass.set_hash (Some (SHA256_JSON block)) block in
   put_self (mkBlockchain (chain bc ++ [block]) updated_height) ;;
   ret block)%op.

Definition genesis_data : Data := DataObject "Genesis Block".

(** [initializeChain()], lines 53-58. *)
Definition initializeChain : Op unit :=
  (bc <- get_self ;;
   if height bc =? -1
   then (_addBlock (BlockClass.new_Block genesis_data) ;; ret tt)
   else ret tt)%op.

(** [getChainHeight()], lines 63-69. *)
Definition getChainHeight (bc : Blockchain) : settled Z :=
  Resolved (height bc).

(** [requestMessageOwnershipVerification(address)], lines 121-125.  The
    argument of [resolve] is written between double quotes, so it is a
    plain string literal: nothing in it is evaluated, and the clock is not
    read. *)
Definition requestMessageOwnershipVerification (address : string) : Op string :=
  ret "${address}:${new Date().getTime().toString().slice(0, -3)}:starRegistry".

(** [parseInt(message.split(':')[1])] *)
Definition time_message (message : string) : option Z :=
  JS.parseInt_opt (nth_error (JS.split ":" message) 1).

(** [parseInt(new Date().getTime().toString().slice(0, -3))] for the
    clock reading [t]. *)
Definition current_time (t : N) : option Z :=
  JS.parseInt (seconds_string t).

Definition elapsed_time (message : string) (t : N) : option Z :=
  JS.minus (current_time t) (time_message message).

(** [submitStar(address, message, signature, star)], lines 144-165.  The
    elapsed time is computed and not used: the test on it is commented
    out in the source.  [initializeChain] is called without [await]. *)
Definition submitStar (address message signature : string) (star : Star)
  : Op Block :=
  (t <- Date_getTime ;;
   let elapsed_time := elapsed_time message t in
   accepted <- lift (verify message address signature) ;;
   if accepted : bool
   then detached initializeChain ;;
        block <- _addBlock (BlockClass.new_Block (StarObject address star)) ;;
        ret block
   else throw "Message with address and signature failed the validation")%op.

(** [block.hash === hash] *)
Definition hash_is (hash : string) (block : Block) : bool :=
  match BlockClass.hash block with
  | Some h => String.eqb h hash
  | None => false
  end.

(** [getBlockByHash(hash)], lines 173-192.  The first test reads the
    property [lenght] of the array of matches; the second compares that
    array with [null], which no array equals. *)
Definition getBlockByHash (bc : Blockchain) (hash : string)
  : settled (list Block) :=
  let matching_block_array := filter (hash_is hash) (chain bc) in
  if JS.strict_equal_number
       (JS.array_property (List.length matching_block_array) "lenght") 1
  then Resolved matching_block_array
  else if false
  then Rejected "Blockchain does countain a block with this hash value"
  else Rejected "Blockchain countains more than one block with the same hash value".

(** [getBlockByHeight(height)], lines 199-209: the first block of that
    height, or [null]. *)
Definition getBlockByHeight (bc : Blockchain) (h : Z) : settled (option Block) :=
  Resolved (hd_error (filter (fun p => BlockClass.height p =? h) (chain bc))).

(** The callback of [getStarsByWalletAddress] from its [await] on: what
    it does to the array [stars] once [getBData] has settled. *)
Definition after_getBData (address : string) (stars : list Data)
  (data : settled Data) : list Data :=
  match data with
  | Resolved data => if owner_is address data then stars ++ [data] else stars
  | Rejected _ => stars
  end.

(** [getStarsByWalletAddress(address)], lines 217-234.  [forEach] calls
    the asynchronous callback on every block; each call runs up to its
    [await] and is queued; then [resolve(stars)] is called. *)
Definition getStarsByWalletAddress (bc : Blockchain) (address : string)
  : Unjoined Data (settled Data) :=
  let stars := [] in
  let queue :=
    fold_left (fun queue block => queue ++ [BlockClass.getBData block])
              (chain bc) [] in
  mkUnjoined stars queue.

(** The array [stars] once the queued callbacks have run.  This is what a
    caller receives who awaits the promise or attaches [then] to it: every
    callback has awaited a promise that [getBData] returned settled, so
    its continuation is queued during the loop, before the caller can
    queue a reaction of its own, and the caller reads the array after all
    of them. *)
Definition stars_eventually (address : string)
  (r : Unjoined Data (settled Data)) : list Data :=
  fold_left (after_getBData address) (pending r) (at_resolve r).

(** One turn of the loop of [validateChain] on the error log, the hash of
    the block before and the queue of [validate] promises. *)
Definition validateChain_step
  (st : list LogEntry * option string * list (settled bool)) (block : Block)
  : list LogEntry * option string * list (settled bool) :=
  let '(errorLog, previous_block_hash, queue) := st in
  let queue := queue ++ [BlockClass.validate SHA256_JSON block] in
  let errorLog :=
    if (BlockClass.height block >? 0)
       && JS.not_equal previous_block_hash (BlockClass.previousBlockHash block)
    then errorLog ++ [Inconsistent "Hash value of previous block not consistent with block "
                                   "Number.prototype.toString"]
    else errorLog in
  (errorLog, BlockClass.hash block, queue).

(** [validateChain()], lines 242-264.  The handlers attached to each
    [block.validate()] run after [resolve(errorLog)]. *)
Definition validateChain (bc : Blockchain)
  : Unjoined LogEntry (settled bool) :=
  let '(errorLog, _, queue) :=
    fold_left validateChain_step (chain bc) ([], None, []) in
  mkUnjoined errorLog queue.

(** The handlers of [validateChain]: [then] ignores the result, [catch]
    pushes the error. *)
Definition after_validate (errorLog : list LogEntry) (r : settled bool)
  : list LogEntry :=
  match r with
  | Resolved _ => errorLog
  | Rejected error => errorLog ++ [Caught error]
  end.

(** The error log once the queued handlers have run. *)
Definition errorLog_eventually (r : Unjoined LogEntry (settled bool))
  : list LogEntry :=
  fold_left after_validate (pending r) (at_resolve r).

(** The arguments of the submission written in the constructor. *)
Definition test_address : string := "1PqXTNFDEFmupGYFDzYhJUn4jgTtGPU51A".
Definition test_message : string :=
  "1PqXTNFDEFmupGYFDzYhJUn4jgTtGPU51A:1641555438:starRegistry".
Definition test_signature : string :=
  "H7Ifo3xVYhAIkcWtFGteTcEXDn1mNZIZz804W7eQKCDIX6dF1nOItjDFRqgL7pdLdBpqmioCFXr0ro33KXZY5cc=".
Definition test_star : Star := mkStar "332" "w23" "my luckystar".

(** The fields as the constructor first sets them. *)
Definition empty_chain : Blockchain := mkBlockchain [] (-1).

(** [new Blockchain()], lines 26-46, in a process that has read the clock
    [n] times: the object when the constructor returns.  None of the
    three promises is awaited; each call has done all its writes when it
    returns. *)
Definition constructor (n : nat) : World :=
  let w := mkWorld empty_chain n in
  let w := snd (detached initializeChain w) in
  let _ := validateChain (self w) in
  snd (detached (submitStar test_address test_message test_signature test_star) w).

End BlockchainClass.

(** ** Chains built by the class *)

Section Built.

Context `{Collaborators}.

(** The worlds in which the chain was written by [_addBlock] only,
    starting from the fields the constructor sets, each call completed
    before the next is started; the clock may be read in between.  The
    block handed to an append is an object of its own, as the callers in the
    class create it with [new Block] just before.  The chains built by
    calls that overlap are those of [overlapped]. *)
Inductive built : World -> Prop :=
| built_new n : built (mkWorld empty_chain n)
| built_clock w : built w -> built (mkWorld (self w) (S (readings w)))
| built_addBlock w block : built w -> built (snd (_addBlock block w)).

(** The objects reached by calls run one at a time: the constructor has
    returned, and the methods that write were called on the object, each
    call completed before the next is started.  The objects reached when
    calls overlap as well are those of [held]. *)
Inductive reachable : World -> Prop :=
| reach_constructor n : reachable (constructor n)
| reach_clock w : reachable w -> reachable (mkWorld (self w) (S (readings w)))
| reach_addBlock w block : reachable w -> reachable (snd (_addBlock block w))
| reach_initializeChain w : reachable w -> reachable (snd (initializeChain w))
| reach_submitStar w address message signature star :
    reachable w ->
    reachable (snd (submitStar address message signature star w)).

(** The height counter is the index of the last block. *)
Definition counted (bc : Blockchain) : Prop :=
  height bc = Z.of_nat (List.length (chain bc)) - 1.

(** The list of errors [validateChain] pushes for broken links, given
    the hash of the block before. *)
Fixpoint broken_links (previous_block_hash : option string) (l : list Block)
  : list LogEntry :=
  match l with
  | [] => []
  | block :: rest =>
      (if (BlockClass.height block >? 0)
          && JS.not_equal previous_block_hash (BlockClass.previousBlockHash block)
       then [Inconsistent "Hash value of previous block not consistent with block "
                          "Number.prototype.toString"]
       else [])
        ++ broken_links (BlockClass.hash block) rest
  end.

(** The format of a challenge: [<address>:<epochSeconds>:starRegistry]. *)
Definition challenge_format (address : string) (epochSeconds : N) : string :=
  (address ++ ":" ++ JS.toString epochSeconds ++ ":starRegistry")%string.

(** The genesis block as [initializeChain] commits it when the clock
    reads [t]. *)
Definition genesis_block (t : N) : Block :=
  let b := BlockClass.mkBlock None 0 (encode genesis_data) (seconds_string t) None in
  BlockClass.set_hash (Some (SHA256_JSON b)) b.

(** The character that stands thirteen places before the last one. *)
Definition before_suffix (s : string) : option ascii :=
  nth_error (rev (list_ascii_of_string s)) 13.

End Built.

(** ** Chains grown by the methods of the class *)

Section Grown.

Context `{Collaborators}.

(** The worlds in which every block of the chain was handed to [_addBlock]
    as a new block, the way [initializeChain] and [submitStar] do, each
    call completed before the next is started. *)
Inductive grown : World -> Prop :=
| grown_new n : grown (mkWorld empty_chain n)
| grown_clock w : grown w -> grown (mkWorld (self w) (S (readings w)))
| grown_addBlock w data :
    grown w -> grown (snd (_addBlock (BlockClass.new_Block data) w)).

(** The hash stored in the block before index [i], and [first] before the
    first block: the value [validateChain] holds in [previous_block_hash]
    when it comes to index [i]. *)
Definition hash_before (first : option string) (l : list Block) (i : nat)
  : option string :=
  match i with
  | O => first
  | S j => match nth_error l j with
           | Some p => BlockClass.hash p
           | None => None
           end
  end.

(** The entry [validateChain] pushes for a broken link. *)
Definition broken_link : LogEntry :=
  Inconsistent "Hash value of previous block not consistent with block "
               "Number.prototype.toString".

(** The character of a decimal digit, and the last decimal digit of a
    number as a character. *)
Definition digit_char (k : N) : ascii :=
  ascii_of_N (48 + k).

Definition last_digit (n : N) : string :=
  String (digit_char (n mod 10)) EmptyString.

(** The chain of [w'] is the chain of [w] followed by at most [k] new
    blocks, and the counter has grown by the number of new blocks. *)
Definition extends_by (k : nat) (w w' : World) : Prop :=
  exists l,
    chain (self w') = chain (self w) ++ l
    /\ (List.length l <= k)%nat
    /\ height (self w') = height (self w) + Z.of_nat (List.length l).

(** No colon in a string. *)
Definition colon_free (s : string) : Prop :=
  ~ In ":"%char (list_ascii_of_string s).

End Grown.

(** ** Appends that overlap

    [_addBlock] reads the counter (line 90) and the hash of the last block
    (line 94) before its [await], and writes the chain and the counter
    after it (lines 102-104).  When the counter is positive, a call
    therefore stops between the two, and other calls started in the same
    synchronous run read the same counter and the same last block. *)

Section Overlap.

Context `{Collaborators}.

(** An append stopped at the [await] of line 94: the caller's block with
    its height assigned (line 91), the height the call will write to the
    counter (line 90), and the hash it has read from the last block. *)
Record Suspended : Type := mkSuspended {
  s_block : Block;
  s_updated_height : Z;
  s_last_hash : option string
}.

(** The object, and the appends waiting to resume in the order in which
    they stopped. *)
Record Loop : Type := mkLoop {
  world : World;
  waiting : list Suspended
}.

(** [_addBlock] from the time stamp on, lines 97-105: the block is pushed
    on the chain as it is at that moment, and the counter is set to the
    height computed at the start of the call. *)
Definition addBlock_commit (block : Block) (updated_height : Z) : Op Block :=
  (t <- Date_getTime ;;
   let block := BlockClass.set_time (seconds_string t) block in
   let block := BlockClass.set_hash (Some (SHA256_JSON block)) block in
   bc <- get_self ;;
   put_self (mkBlockchain (chain bc ++ [block]) updated_height) ;;
   ret block)%op.

(** [_addBlock(block)] up to its first stop: to the [await] when the
    counter is positive, to the end otherwise; a call that throws writes
    nothing. *)
Definition addBlock_start (block : Block) (l : Loop) : Loop :=
  let bc := self (world l) in
  let updated_height := height bc + 1 in
  let block := BlockClass.set_height updated_height block in
  if height bc >? 0
  then match at_minus1 (chain bc) with
       | Some last =>
           mkLoop (world l)
                  (waiting l ++ [mkSuspended block updated_height (BlockClass.hash last)])
       | None => l
       end
  else mkLoop (snd (addBlock_commit block updated_height (world l))) (waiting l).

(** The append that stopped first resumes: line 94 assigns the hash it
    had read, and the call runs to its end. *)
Definition addBlock_resume (l : Loop) : Loop :=
  match waiting l with
  | [] => l
  | s :: rest =>
      mkLoop (snd (addBlock_commit
                     (BlockClass.set_previousBlockHash (s_last_hash s) (s_block s))
                     (s_updated_height s) (world l)))
             rest
  end.

(** The clock is read. *)
Definition tick (l : Loop) : Loop :=
  mkLoop (mkWorld (self (world l)) (S (readings (world l)))) (waiting l).

(** [initializeChain()] up to the first stop of its append. *)
Definition initializeChain_start (l : Loop) : Loop :=
  if height (self (world l)) =? -1
  then addBlock_start (BlockClass.new_Block genesis_data) l
  else l.

(** [submitStar(address, message, signature, star)] up to the first stop
    of its append. *)
Definition submitStar_start (address message signature : string) (star : Star)
  (l : Loop) : Loop :=
  let l := tick l in
  match verify message address signature with
  | Resolved true =>
      addBlock_start (BlockClass.new_Block (StarObject address star))
                     (initializeChain_start l)
  | _ => l
  end.

(** The states reached from the object [start] by appends that may
    overlap: calls are started in any number before the waiting ones
    resume. *)
Inductive overlapped (start : World) : Loop -> Prop :=
| over_start : overlapped start (mkLoop start [])
| over_tick l : overlapped start l -> overlapped start (tick l)
| over_addBlock l block :
    overlapped start l -> overlapped start (addBlock_start block l)
| over_resume l :
    overlapped start l -> overlapped start (addBlock_resume l).

(** The objects a caller can hold when no append is waiting: the
    constructor has returned, calls were made on the object, overlapping or
    not, and all of them have completed. *)
Definition held (w : World) : Prop :=
  exists n, overlapped (constructor n) (mkLoop w []).

(** The counter is between 0 and the last index, and so is the height each
    waiting append will write. *)
Definition within (l : Loop) : Prop :=
  0 <= height (self (world l))
       <= Z.of_nat (List.length (chain (self (world l)))) - 1
  /\ Forall (fun s => 1 <= s_updated_height s
                      <= Z.of_nat (List.length (chain (self (world l)))))
            (waiting l).

End Overlap.

(** ** A sample world, for running the operations

    The body is stored as the data itself, the digest is the serialised
    block, the verifier accepts the submission written in the constructor
    and every signature of the form [sig:<address>:<message>], throws on an
    empty signature, and the clock advances by one second per reading. *)

Module Sample.

#[export] Instance codec : BodyCodec :=
  {| Stored := Data; encode := fun d => d; decode := fun d => d;
     decode_encode := fun d => eq_refl |}.

Definition show_option (o : option string) : string :=
  match o with Some s => s | None => "null" end.

Definition show_data (d : Data) : string :=
  match d with
  | DataObject s => ("{data:" ++ s ++ "}")%string
  | StarObject o s =>
      ("{owner:" ++ o ++ ",star:{dec:" ++ dec s ++ ",ra:" ++ ra s
         ++ ",story:" ++ story s ++ "}}")%string
  end.

Definition show_Z (z : Z) : string :=
  match z with
  | Zneg p => ("-" ++ JS.toString (Npos p))%string
  | _ => JS.toString (Z.to_N z)
  end.

Definition stringify (b : Block) : string :=
  ("{hash:" ++ show_option (BlockClass.hash b)
     ++ ",height:" ++ show_Z (BlockClass.height b)
     ++ ",body:" ++ show_data (BlockClass.body b)
     ++ ",time:" ++ BlockClass.time b
     ++ ",previousBlockHash:" ++ show_option (BlockClass.previousBlockHash b)
     ++ "}")%string.

Definition accepts (message address signature : string) : settled bool :=
  if String.eqb signature "" then Rejected "Invalid signature length"
  else Resolved
         ((String.eqb message test_message && String.eqb address test_address
             && String.eqb signature test_signature)
          || String.eqb signature ("sig:" ++ address ++ ":" ++ message)%string).

#[export] Instance collaborators : Collaborators :=
  {| SHA256_JSON := stringify;
     verify := accepts;
     getTime := fun n => (1700000000000 + 1000 * N.of_nat n)%N |}.

(** The same world with a verifier that accepts nothing. *)
Definition strict : Collaborators :=
  {| SHA256_JSON := stringify;
     verify := fun _ _ _ => Resolved false;
     getTime := fun n => (1700000000000 + 1000 * N.of_nat n)%N |}.

Definition alice : string := "1AliceXXXXXXXXXXXXXXXXXXXXXXXXXXXXX".
Definition a_star : Star := mkStar "+15 7m" "5h 2m" "testing".

(** The object the sample constructor returns: the genesis block and the
    block of the built-in submission. *)
Definition sample_world : World := constructor 0.

Definition sample_star_block : Block :=
  Eval vm_compute in
    nth 1 (chain (self (constructor 0))) (BlockClass.new_Block genesis_data).

(** A chain of one block, the sample genesis block with another body. *)
Definition tampered_genesis : Block :=
  Eval vm_compute in
    BlockClass.mkBlock (BlockClass.hash (genesis_block (getTime 0))) 0
                       (DataObject "Tampered")
                       (BlockClass.time (genesis_block (getTime 0))) None.

Definition tampered_chain : Blockchain := mkBlockchain [tampered_genesis] 0.

(** A third block: a star of [alice], submitted to the sample object with
    a signature the sample verifier accepts. *)
Definition alice_signature : string := "sig:1AliceXXXXXXXXXXXXXXXXXXXXXXXXXXXXX:m".

Definition sample_world3 : World :=
  snd (submitStar alice "m" alice_signature a_star sample_world).

Definition sample_alice_block : Block :=
  Eval vm_compute in
    nth 2 (chain (self (snd (submitStar alice "m" alice_signature a_star (constructor 0)))))
        (BlockClass.new_Block genesis_data).

(** Overlapping calls.  On the sample object, two submissions are started
    one after the other before either resumes, then both resume. *)
Definition bob : string := "1BobXXXXXXXXXXXXXXXXXXXXXXXXXXXXXXX".
Definition bob_signature : string := "sig:1BobXXXXXXXXXXXXXXXXXXXXXXXXXXXXXXX:m".

Definition overlap_loop : Loop :=
  addBlock_resume
    (addBlock_resume
       (submitStar_start bob "m" bob_signature a_star
          (submitStar_start alice "m" alice_signature a_star
             (mkLoop sample_world [])))).

Definition overlap_world : World := world overlap_loop.


(** The block a submission of [bob] resolves with on the object the
    overlapping calls have left. *)
Definition sample_bob_block : Block :=
  Eval vm_compute in
    nth 4 (chain (self (snd (submitStar bob "m" bob_signature a_star
                                        (world overlap_loop)))))
        (BlockClass.new_Block genesis_data).

End Sample.


Create HintDb chain.
#[local] Hint Constructors built reachable : chain.

(** ** Properties of the append operation *)

Section Append.

Context `{Collaborators}.

Lemma at_minus1_last {A} (l : list A) (x : A) : at_minus1 (l ++ [x]) = Some x.
Proof.
  unfold at_minus1. rewrite length_app. cbn [List.length].
  replace (List.length l + 1 - 1)%nat with (List.length l) by lia.
  rewrite nth_error_app2 by lia. now rewrite Nat.sub_diag.
Qed.

Lemma at_minus1_nil_iff {A} (l : list A) : at_minus1 l = None <-> l = [].
Proof.
  split.
  - destruct l as [|a l] using rev_ind; [reflexivity|].
    now rewrite at_minus1_last.
  - now intros ->.
Qed.

(** What a resolved append has done. *)
Lemma addBlock_resolved block w b w' :
  _addBlock block w = (Resolved b, w') ->
  self w' = mkBlockchain (chain (self w) ++ [b]) (height (self w) + 1)
  /\ readings w' = S (readings w)
  /\ BlockClass.height b = height (self w) + 1
  /\ BlockClass.body b = BlockClass.body block
  /\ BlockClass.time b = seconds_string (getTime (readings w))
  /\ BlockClass.previousBlockHash b
     = (if height (self w) >? 0
        then match at_minus1 (chain (self w)) with
             | Some last => BlockClass.hash last
             | None => None
             end
        else BlockClass.previousBlockHash block)
  /\ BlockClass.hash b = Some (SHA256_JSON (BlockClass.set_hash (BlockClass.hash block) b)).
Proof.
  unfold _addBlock, bind, get_self, put_self, ret, throw, Date_getTime.
  destruct (height (self w) >? 0).
  - destruct (at_minus1 (chain (self w))); cbn; intros [= <- <-]; cbn;
      repeat split; reflexivity.
  - cbn; intros [= <- <-]; cbn; repeat split; reflexivity.
Qed.

(** An append is rejected only on an object whose counter is positive
    while its chain is empty, and then writes nothing. *)
Lemma addBlock_rejected block w e w' :
  _addBlock block w = (Rejected e, w') ->
  w' = w /\ height (self w) > 0 /\ chain (self w) = [].
Proof.
  unfold _addBlock, bind, get_self, put_self, ret, throw, Date_getTime.
  destruct (height (self w) >? 0) eqn:Hh.
  - destruct (at_minus1 (chain (self w))) eqn:Hl; cbn; intros [= <- <-].
    repeat split; [lia | now apply at_minus1_nil_iff].
  - cbn. discriminate.
Qed.

Lemma addBlock_total block w :
  counted (self w) ->
  exists b w', _addBlock block w = (Resolved b, w').
Proof.
  intros Hc. destruct (_addBlock block w) as [[b|e] w'] eqn:E; eauto.
  apply addBlock_rejected in E as (_ & Hh & Hn).
  unfold counted in Hc. rewrite Hn in Hc. cbn in Hc. lia.
Qed.

Lemma addBlock_counted block w :
  counted (self w) -> counted (self (snd (_addBlock block w))).
Proof.
  intros Hc. destruct (_addBlock block w) as [[b|e] w'] eqn:E; cbn.
  - apply addBlock_resolved in E as (-> & _). unfold counted in *. cbn.
    rewrite length_app. cbn. lia.
  - now apply addBlock_rejected in E as (-> & _).
Qed.

Lemma built_counted w : built w -> counted (self w).
Proof.
  induction 1 as [n | w Hb IH | w block Hb IH].
  - reflexivity.
  - exact IH.
  - now apply addBlock_counted.
Qed.


(** From the third block on, a block of a built chain carries the hash of
    the block before it. *)
Lemma built_links w :
  built w ->
  forall i p b, (1 <= i)%nat ->
                nth_error (chain (self w)) i = Some p ->
                nth_error (chain (self w)) (S i) = Some b ->
                BlockClass.previousBlockHash b = BlockClass.hash p.
Proof.
  induction 1 as [n | w Hb IH | w block Hb IH].
  - intros [|i] p b; discriminate.
  - exact IH.
  - intros i p b Hi. pose proof (built_counted Hb) as Hc.
    destruct (_addBlock block w) as [[c|e] w'] eqn:E; cbn [snd].
    + apply addBlock_resolved in E as (-> & _ & _ & _ & _ & Hp & _). cbn [chain].
      destruct (Nat.lt_ge_cases (S i) (List.length (chain (self w)))) as [Hl|Hl].
      * rewrite !nth_error_app1 by lia. now apply IH.
      * intros Hpi Hbi.
        assert (S i = List.length (chain (self w))) as Hlen.
        { apply (f_equal (@Some _)) in Hbi. 
          assert (S i < List.length (chain (self w) ++ [c]))%nat as Hlt
              by (apply nth_error_Some; congruence).
          rewrite length_app in Hlt. cbn in Hlt. lia. }
        rewrite nth_error_app1 in Hpi by lia.
        rewrite nth_error_app2, Hlen, Nat.sub_diag in Hbi by lia.
        cbn in Hbi. injection Hbi as <-.
        rewrite Hp.
        replace (height (self w) >? 0) with true
          by (symmetry; apply Z.gtb_lt; unfold counted in Hc; lia).
        unfold at_minus1. rewrite <- Hlen. cbn [Nat.sub].
        rewrite Nat.sub_0_r, Hpi. reflexivity.
    + apply addBlock_rejected in E as (-> & _). now apply IH.
Qed.

End Append.

(** ** Initialisation, submission and construction *)

Section Submission.

Context `{Collaborators}.

Lemma initializeChain_empty n :
  initializeChain (mkWorld empty_chain n)
  = (Resolved tt, mkWorld (mkBlockchain [genesis_block (getTime n)] 0) (S n)).
Proof. reflexivity. Qed.

(** [initializeChain] does nothing once the counter has left -1. *)
Lemma initializeChain_idle w :
  height (self w) <> -1 -> initializeChain w = (Resolved tt, w).
Proof.
  intros Hh. unfold initializeChain, bind, get_self.
  destruct (Z.eqb_spec (height (self w)) (-1)); [contradiction | reflexivity].
Qed.

Lemma initializeChain_snd w :
  snd (initializeChain w)
  = if height (self w) =? -1
    then snd (_addBlock (BlockClass.new_Block genesis_data) w)
    else w.
Proof.
  unfold initializeChain, bind, get_self.
  destruct (height (self w) =? -1); [|reflexivity].
  now destruct (_addBlock (BlockClass.new_Block genesis_data) w) as [[b|e] w'].
Qed.

(** [submitStar], call by call. *)
Lemma submitStar_run address message signature star w :
  submitStar address message signature star w
  = let w1 := mkWorld (self w) (S (readings w)) in
    match verify message address signature with
    | Resolved true =>
        _addBlock (BlockClass.new_Block (StarObject address star))
                  (snd (initializeChain w1))
    | Resolved false =>
        (Rejected "Message with address and signature failed the validation", w1)
    | Rejected e => (Rejected e, w1)
    end.
Proof.
  unfold submitStar, bind at 1 2 3, lift, Date_getTime, detached, throw.
  cbn [self readings snd]. cbv zeta.
  destruct (verify message address signature) as [[|]|e]; try reflexivity.
  unfold bind, ret.
  now destruct (_addBlock _ _) as [[b|e] w'].
Qed.

Lemma initializeChain_built w : built w -> built (snd (initializeChain w)).
Proof.
  intros Hb. rewrite initializeChain_snd.
  destruct (height (self w) =? -1); auto with chain.
Qed.

Lemma submitStar_built address message signature star w :
  built w -> built (snd (submitStar address message signature star w)).
Proof.
  intros Hb. rewrite submitStar_run. cbv zeta.
  destruct (verify message address signature) as [[|]|e]; cbn [snd];
    auto using initializeChain_built with chain.
Qed.

Lemma constructor_built n : built (constructor n).
Proof.
  unfold constructor, detached. cbn [snd].
  apply submitStar_built, initializeChain_built. constructor.
Qed.

(** No write of the class removes a block. *)
Lemma addBlock_grows block w :
  (List.length (chain (self w))
   <= List.length (chain (self (snd (_addBlock block w)))))%nat.
Proof.
  destruct (_addBlock block w) as [[b|e] w'] eqn:E; cbn [snd].
  - apply addBlock_resolved in E as (-> & _). cbn. rewrite length_app. lia.
  - now apply addBlock_rejected in E as (-> & _).
Qed.

Lemma initializeChain_grows w :
  (List.length (chain (self w))
   <= List.length (chain (self (snd (initializeChain w)))))%nat.
Proof.
  rewrite initializeChain_snd.
  destruct (height (self w) =? -1); auto using addBlock_grows.
Qed.

Lemma submitStar_grows address message signature star w :
  (List.length (chain (self w))
   <= List.length (chain (self (snd (submitStar address message signature star w)))))%nat.
Proof.
  rewrite submitStar_run. cbv zeta.
  destruct (verify message address signature) as [[|]|e]; cbn [snd self]; auto.
  etransitivity; [|apply addBlock_grows].
  apply (initializeChain_grows (mkWorld (self w) (S (readings w)))).
Qed.

(** A reachable object was built by appends and holds the genesis block
    at least. *)
Lemma reachable_built w :
  reachable w -> built w /\ (1 <= List.length (chain (self w)))%nat.
Proof.
  induction 1 as [n | w Hr [IHb IHl] | w block Hr [IHb IHl]
                 | w Hr [IHb IHl] | w a m s st Hr [IHb IHl]].
  - split; [apply constructor_built|].
    unfold constructor, detached. cbn [snd].
    etransitivity; [|apply submitStar_grows]. cbn. lia.
  - split; [now constructor | exact IHl].
  - split; [now constructor|].
    etransitivity; [exact IHl | apply addBlock_grows].
  - split; [now apply initializeChain_built|].
    etransitivity; [exact IHl | apply initializeChain_grows].
  - split; [now apply submitStar_built|].
    etransitivity; [exact IHl | apply submitStar_grows].
Qed.

Lemma reachable_initialized w :
  reachable w -> counted (self w) /\ 0 <= height (self w).
Proof.
  intros Hr. apply reachable_built in Hr as [Hb Hl].
  pose proof (built_counted Hb) as Hc. split; [exact Hc|].
  unfold counted in Hc. lia.
Qed.

(** On a reachable object an accepted submission resolves with the block
    it appended. *)
Lemma submitStar_accepted address message signature star w :
  reachable w ->
  verify message address signature = Resolved true ->
  exists b,
    fst (submitStar address message signature star w) = Resolved b
    /\ self (snd (submitStar address message signature star w))
       = mkBlockchain (chain (self w) ++ [b]) (height (self w) + 1)
    /\ BlockClass.body b = encode (StarObject address star).
Proof.
  intros Hr Hv. apply reachable_initialized in Hr as [Hc Hh].
  rewrite submitStar_run, Hv. cbv zeta.
  rewrite initializeChain_idle by (cbn; lia). cbn [snd].
  destruct (addBlock_total (BlockClass.new_Block (StarObject address star))
              (mkWorld (self w) (S (readings w))) Hc) as (b & w' & E).
  rewrite E. exists b. cbn [fst snd].
  apply addBlock_resolved in E as (-> & _ & _ & Hbody & _).
  repeat split; assumption.
Qed.

(** C1: a submission whose message is older than the window of 300
    seconds is not refused.  On every reachable object, when the verifier
    accepts the signature the call resolves and appends the block, however
    large the elapsed time is. *)
Theorem submitStar_accepts_expired_challenge address message signature star w e :
  reachable w ->
  elapsed_time message (getTime (readings w)) = Some e ->
  300 < e ->
  verify message address signature = Resolved true ->
  exists b,
    fst (submitStar address message signature star w) = Resolved b
    /\ self (snd (submitStar address message signature star w))
       = mkBlockchain (chain (self w) ++ [b]) (height (self w) + 1).
Proof.
  intros Hr _ _ Hv.
  destruct (submitStar_accepted address message signature star Hr Hv)
    as (b & Hb & Hs & _).
  now exists b.
Qed.

(** C9: on every reachable object, a call of [submitStar] that fails
    leaves the chain and the height counter as they were, a refused
    signature makes it fail with the validation message, and a call that
    succeeds appends exactly one block, the one it resolves with. *)
Theorem submitStar_fails_clean_or_appends_one address message signature star w :
  reachable w ->
  (verify message address signature = Resolved false ->
   fst (submitStar address message signature star w)
   = Rejected "Message with address and signature failed the validation")
  /\ match fst (submitStar address message signature star w) with
     | Rejected _ =>
         self (snd (submitStar address message signature star w)) = self w
     | Resolved b =>
         self (snd (submitStar address message signature star w))
         = mkBlockchain (chain (self w) ++ [b]) (height (self w) + 1)
     end.
Proof.
  intros Hr. split.
  - intros Hv. now rewrite submitStar_run, Hv.
  - destruct (verify message address signature) as [[|]|err] eqn:Hv.
    + destruct (submitStar_accepted address message signature star Hr Hv)
        as (b & -> & Hs & _).
      exact Hs.
    + now rewrite submitStar_run, Hv.
    + now rewrite submitStar_run, Hv.
Qed.

(** C2: the block appended right after the genesis block is not linked.
    Starting from the fields of a new object, after [initializeChain] and
    one append of a new block the chain holds two blocks, and the one at
    height 1 has no previous hash, while the genesis block has a hash. *)
Theorem block_one_has_no_previous_hash n data :
  let w := snd (_addBlock (BlockClass.new_Block data)
                          (snd (initializeChain (mkWorld empty_chain n)))) in
  built w
  /\ exists g b,
      chain (self w) = [g; b]
      /\ BlockClass.height g = 0 /\ BlockClass.height b = 1
      /\ BlockClass.previousBlockHash b = None
      /\ BlockClass.hash g <> None
      /\ BlockClass.previousBlockHash b <> BlockClass.hash g.
Proof.
  intros w. split.
  - apply built_addBlock, initializeChain_built, built_new.
  - subst w. rewrite initializeChain_empty. cbn.
    eexists _, _. split; [reflexivity|]. cbn.
    repeat split; discriminate.
Qed.

(** C7: the constructor does not stop at the genesis block.  When the
    verifier accepts the submission written in the constructor, the object
    it returns has height 1 and two blocks: the genesis block, without
    previous hash and with the marker as body, and a block registering the
    test star. *)
Theorem constructor_leaves_two_blocks n :
  verify test_message test_address test_signature = Resolved true ->
  height (self (constructor n)) = 1
  /\ exists b,
      chain (self (constructor n)) = [genesis_block (getTime n); b]
      /\ BlockClass.previousBlockHash (genesis_block (getTime n)) = None
      /\ BlockClass.body (genesis_block (getTime n)) = encode genesis_data
      /\ BlockClass.height b = 1
      /\ BlockClass.body b = encode (StarObject test_address test_star).
Proof.
  intros Hv. unfold constructor, detached. cbn [snd].
  rewrite initializeChain_empty. cbn [snd].
  rewrite submitStar_run, Hv. cbv zeta.
  rewrite initializeChain_idle by (cbn; lia).
  cbn. split; [reflexivity|].
  eexists. split; [reflexivity|]. cbn. repeat split.
Qed.

(** Without that built-in submission the object would hold the genesis
    block alone: this is the state when the verifier does not accept it. *)
Lemma constructor_when_refused n :
  verify test_message test_address test_signature <> Resolved true ->
  self (constructor n) = mkBlockchain [genesis_block (getTime n)] 0.
Proof.
  intros Hv. unfold constructor, detached. cbn [snd].
  rewrite initializeChain_empty. cbn [snd].
  rewrite submitStar_run. cbv zeta.
  destruct (verify test_message test_address test_signature) as [[|]|e];
    [contradiction | reflexivity | reflexivity].
Qed.

End Submission.

(** ** Overlapping appends and the calls run one at a time *)

Section OverlapFacts.

Context `{Collaborators}.

(** A call of [_addBlock] that is started while no append is waiting and
    resumes before anything else happens is the call run to completion. *)
Lemma addBlock_alone block w :
  addBlock_resume (addBlock_start block (mkLoop w []))
  = mkLoop (snd (_addBlock block w)) [].
Proof.
  unfold addBlock_start, addBlock_resume, _addBlock, addBlock_commit,
    bind, get_self, put_self, ret, throw, Date_getTime.
  cbn [world waiting app].
  destruct (height (self w) >? 0); [|reflexivity].
  destruct (at_minus1 (chain (self w))); reflexivity.
Qed.

Lemma over_addBlock_alone start block w :
  overlapped start (mkLoop w []) ->
  overlapped start (mkLoop (snd (_addBlock block w)) []).
Proof.
  intros Ho. rewrite <- addBlock_alone. now apply over_resume, over_addBlock.
Qed.

Lemma over_clock start w :
  overlapped start (mkLoop w []) ->
  overlapped start (mkLoop (mkWorld (self w) (S (readings w))) []).
Proof. intros Ho. exact (over_tick Ho). Qed.

Lemma over_initializeChain_alone start w :
  overlapped start (mkLoop w []) ->
  overlapped start (mkLoop (snd (initializeChain w)) []).
Proof.
  intros Ho. rewrite initializeChain_snd.
  destruct (height (self w) =? -1); [now apply over_addBlock_alone | exact Ho].
Qed.

Lemma over_submitStar_alone start address message signature star w :
  overlapped start (mkLoop w []) ->
  overlapped start (mkLoop (snd (submitStar address message signature star w)) []).
Proof.
  intros Ho. rewrite submitStar_run. cbv zeta.
  destruct (verify message address signature) as [[|]|e]; cbn [snd];
    try (now apply over_clock).
  now apply over_addBlock_alone, over_initializeChain_alone, over_clock.
Qed.

(** The chains built by calls run one at a time are among the chains
    built by calls that may overlap. *)
Lemma built_overlapped w :
  built w -> exists n, overlapped (mkWorld empty_chain n) (mkLoop w []).
Proof.
  induction 1 as [n | w Hb [n IH] | w block Hb [n IH]].
  - exists n. constructor.
  - exists n. now apply over_clock.
  - exists n. now apply over_addBlock_alone.
Qed.

Lemma reachable_held w : reachable w -> held w.
Proof.
  induction 1 as [n | w Hr [n IH] | w block Hr [n IH]
                 | w Hr [n IH] | w a m s st Hr [n IH]]; exists n.
  - constructor.
  - now apply over_clock.
  - now apply over_addBlock_alone.
  - now apply over_initializeChain_alone.
  - now apply over_submitStar_alone.
Qed.

Lemma over_initializeChain start l :
  overlapped start l -> overlapped start (initializeChain_start l).
Proof.
  intros Ho. unfold initializeChain_start.
  destruct (height (self (world l)) =? -1); [now apply over_addBlock | exact Ho].
Qed.

Lemma over_submitStar start address message signature star l :
  overlapped start l ->
  overlapped start (submitStar_start address message signature star l).
Proof.
  intros Ho. unfold submitStar_start.
  destruct (verify message address signature) as [[|]|e];
    try (now apply over_tick).
  now apply over_addBlock, over_initializeChain, over_tick.
Qed.

Lemma Forall_within_grows (len len' : Z) (q : list Suspended) :
  len <= len' ->
  Forall (fun s => 1 <= s_updated_height s <= len) q ->
  Forall (fun s => 1 <= s_updated_height s <= len') q.
Proof.
  intros Hle Hq. eapply Forall_impl; [|exact Hq]. cbn. intros s Hs. lia.
Qed.

Lemma commit_state block updated_height w :
  snd (addBlock_commit block updated_height w)
  = mkWorld (mkBlockchain
               (chain (self w)
                  ++ [BlockClass.set_hash
                        (Some (SHA256_JSON
                                 (BlockClass.set_time (seconds_string (getTime (readings w)))
                                                      block)))
                        (BlockClass.set_time (seconds_string (getTime (readings w))) block)])
               updated_height)
            (S (readings w)).
Proof. reflexivity. Qed.

Lemma within_start block l : within l -> within (addBlock_start block l).
Proof.
  unfold within. intros [Hh Hq]. unfold addBlock_start.
  destruct (Z.gtb_spec (height (self (world l))) 0) as [Hpos | Hle].
  - destruct (at_minus1 (chain (self (world l)))); [|split; assumption].
    cbn [world waiting]. split; [exact Hh|].
    apply Forall_app. split; [exact Hq|].
    constructor; [cbn; lia | constructor].
  - cbn [world waiting]. rewrite commit_state. cbn [self chain height].
    rewrite length_app. cbn [List.length]. split; [lia|].
    eapply Forall_within_grows; [|exact Hq]. lia.
Qed.

Lemma within_resume l : within l -> within (addBlock_resume l).
Proof.
  unfold within. intros [Hh Hq]. unfold addBlock_resume.
  destruct (waiting l) as [|s rest] eqn:E;
    [split; [assumption | rewrite E; constructor]|].
  inversion Hq as [|? ? Hs Hrest]; subst.
  cbn [world waiting]. rewrite commit_state. cbn [self chain height].
  rewrite length_app. cbn [List.length]. split; [lia|].
  eapply Forall_within_grows; [|exact Hrest]. lia.
Qed.

Lemma overlapped_within start l :
  within (mkLoop start []) -> overlapped start l -> within l.
Proof.
  intros Hs. induction 1 as [| l Ho IH | l block Ho IH | l Ho IH].
  - exact Hs.
  - exact IH.
  - now apply within_start.
  - now apply within_resume.
Qed.

(** On every object a caller can hold, the counter is between 0 and the
    last index. *)
Lemma held_within w :
  held w ->
  0 <= height (self w) <= Z.of_nat (List.length (chain (self w))) - 1.
Proof.
  intros [n Ho].
  assert (Hs : within (mkLoop (constructor n) [])).
  { destruct (reachable_initialized (reach_constructor n)) as [Hc Hh].
    unfold within, counted in *. cbn [world waiting]. split; [lia | constructor]. }
  exact (proj1 (overlapped_within Hs Ho)).
Qed.

End OverlapFacts.

(** ** The queries and the validator *)

Section Queries.

Context `{Collaborators}.

(** C4: [getBlockByHash] never succeeds and never reports a missing
    block.  For every chain and every hash, whether no block, one block or
    several blocks carry it, the call is rejected with the message for
    more than one match. *)
Theorem getBlockByHash_always_rejects (bc : Blockchain) (hash : string) :
  getBlockByHash bc hash
  = Rejected "Blockchain countains more than one block with the same hash value".
Proof. reflexivity. Qed.

Lemma queued_decodes (l : list Block) (queue : list (settled Data)) :
  fold_left (fun queue block => queue ++ [BlockClass.getBData block]) l queue
  = queue ++ map (fun block => Resolved (decode (BlockClass.body block))) l.
Proof.
  revert queue. induction l as [|b l IH]; intros queue; cbn.
  - now rewrite app_nil_r.
  - rewrite IH, <- app_assoc. reflexivity.
Qed.

Lemma run_decodes address (l : list Block) (stars : list Data) :
  fold_left (after_getBData address)
            (map (fun block => Resolved (decode (BlockClass.body block))) l) stars
  = stars ++ filter (owner_is address)
                    (map (fun block => decode (BlockClass.body block)) l).
Proof.
  revert stars. induction l as [|b l IH]; intros stars; cbn.
  - now rewrite app_nil_r.
  - rewrite IH. destruct (owner_is address (decode (BlockClass.body b))).
    + now rewrite <- app_assoc.
    + reflexivity.
Qed.

(** The moment [resolve] is called: the array is still empty and one
    callback per block is pending; the stars of the address are in the
    array after those callbacks have run. *)
Lemma getStarsByWalletAddress_resolves_early (bc : Blockchain) (address : string) :
  at_resolve (getStarsByWalletAddress bc address) = []
  /\ List.length (pending (getStarsByWalletAddress bc address))
     = List.length (chain bc)
  /\ stars_eventually address (getStarsByWalletAddress bc address)
     = filter (owner_is address)
              (map (fun block => decode (BlockClass.body block)) (chain bc)).
Proof.
  unfold stars_eventually, getStarsByWalletAddress. cbn [at_resolve pending].
  rewrite queued_decodes. cbn [app].
  repeat split.
  - now rewrite length_map.
  - apply run_decodes.
Qed.


Lemma validateChain_loop (l : list Block) errorLog previous queue :
  exists final_hash,
    fold_left validateChain_step l (errorLog, previous, queue)
    = (errorLog ++ broken_links previous l,
       final_hash,
       queue ++ map (BlockClass.validate SHA256_JSON) l).
Proof.
  revert errorLog previous queue.
  induction l as [|b l IH]; intros errorLog previous queue.
  - exists previous. cbn. now rewrite !app_nil_r.
  - cbn [fold_left validateChain_step].
    destruct (IH (if (BlockClass.height b >? 0)
                     && JS.not_equal previous (BlockClass.previousBlockHash b)
                  then errorLog ++ [Inconsistent "Hash value of previous block not consistent with block "
                                                 "Number.prototype.toString"]
                  else errorLog)
                 (BlockClass.hash b)
                 (queue ++ [BlockClass.validate SHA256_JSON b]))
      as (final_hash & ->).
    exists final_hash. cbn [broken_links map]. f_equal; [f_equal|].
    + destruct (_ && _); cbn [app]; now rewrite <- ?app_assoc.
    + now rewrite <- app_assoc.
Qed.

Lemma handlers_ignore_results (l : list Block) errorLog :
  fold_left after_validate (map (BlockClass.validate SHA256_JSON) l) errorLog
  = errorLog.
Proof.
  revert errorLog. induction l as [|b l IH]; intros errorLog; cbn; auto.
Qed.

(** The error log holds the broken links and nothing else, both when
    [resolve] is called and after the handlers have run. *)
Lemma validateChain_log (bc : Blockchain) :
  at_resolve (validateChain bc) = broken_links None (chain bc)
  /\ errorLog_eventually (validateChain bc) = broken_links None (chain bc)
  /\ pending (validateChain bc) = map (BlockClass.validate SHA256_JSON) (chain bc).
Proof.
  unfold errorLog_eventually, validateChain.
  destruct (validateChain_loop (chain bc) [] None []) as (final_hash & ->).
  cbn [at_resolve pending app].
  rewrite handlers_ignore_results. auto.
Qed.

(** C3: [validateChain] does not report the blocks whose hash is wrong.
    When the links of a chain are in order, the error log is empty, at the
    moment the promise resolves and after the pending handlers have run,
    even though a block of the chain fails its own validation. *)
Theorem validateChain_misses_hash_errors (bc : Blockchain) (b : Block) :
  In b (chain bc) ->
  BlockClass.validate SHA256_JSON b = Resolved false ->
  broken_links None (chain bc) = [] ->
  at_resolve (validateChain bc) = []
  /\ errorLog_eventually (validateChain bc) = [].
Proof.
  intros _ _ Hl. destruct (validateChain_log bc) as (-> & -> & _).
  now split.
Qed.

(** C10: the challenge is one fixed string.  Whatever the two addresses,
    the two objects and the clock readings they are at, the two calls
    resolve with the same message; the call does not read the clock. *)
Theorem challenge_is_constant (a1 a2 : string) (w1 w2 : World) :
  fst (requestMessageOwnershipVerification a1 w1)
  = fst (requestMessageOwnershipVerification a2 w2)
  /\ snd (requestMessageOwnershipVerification a1 w1) = w1.
Proof. split; reflexivity. Qed.

End Queries.

(** ** The challenge message *)

Section Challenge.

Context `{BodyCodec}.

Lemma list_ascii_of_append (s1 s2 : string) :
  list_ascii_of_string (s1 ++ s2)%string
  = list_ascii_of_string s1 ++ list_ascii_of_string s2.
Proof. induction s1 as [|a s1 IH]; cbn; [reflexivity | now rewrite IH]. Qed.

Lemma uint_chars_no_brace (d : Decimal.uint) (c : ascii) :
  In c (list_ascii_of_string (NilEmpty.string_of_uint d)) -> c <> "}"%char.
Proof.
  induction d as [|d IH|d IH|d IH|d IH|d IH|d IH|d IH|d IH|d IH|d IH];
    cbn; intros Hin; [contradiction | ..];
    (destruct Hin as [<- | Hin]; [discriminate | now apply IH]).
Qed.

Lemma toString_no_brace (t : N) (c : ascii) :
  In c (list_ascii_of_string (JS.toString t)) -> c <> "}"%char.
Proof.
  unfold JS.toString, NilZero.string_of_uint.
  destruct (N.to_uint t) eqn:E; try (rewrite <- E; apply uint_chars_no_brace).
  cbn. intros [<- | []]. discriminate.
Qed.

Lemma before_suffix_format (address : string) (epochSeconds : N) :
  before_suffix (challenge_format address epochSeconds) <> Some "}"%char.
Proof.
  unfold before_suffix, challenge_format.
  rewrite !list_ascii_of_append, !rev_app_distr.
  cbn [list_ascii_of_string rev app].
  cbn [nth_error].
  destruct (rev (list_ascii_of_string (JS.toString epochSeconds))) as [|c l] eqn:E.
  - cbn. discriminate.
  - cbn. intros [= ->].
    apply (@toString_no_brace epochSeconds "}"%char); [|reflexivity].
    apply in_rev. rewrite E. now left.
Qed.

(** C6: the challenge is not of the form
    [<address>:<epochSeconds>:starRegistry].  For every address and every
    value of the clock, the message the call resolves with differs from
    the address, a colon, the decimal seconds and [:starRegistry] put
    together. *)
Theorem challenge_is_not_formatted (address : string) (epochSeconds : N) (w : World) :
  fst (requestMessageOwnershipVerification address w)
  <> Resolved (challenge_format address epochSeconds).
Proof.
  cbn. intros [= E].
  apply (@before_suffix_format address epochSeconds).
  rewrite <- E. reflexivity.
Qed.

End Challenge.

(** ** More on the append operation and the lookups *)

Section Lookups.

Context `{Collaborators}.

Lemma built_height_list w :
  built w ->
  map (@BlockClass.height _) (chain (self w))
  = map Z.of_nat (seq 0 (List.length (chain (self w)))).
Proof.
  induction 1 as [n | w Hb IH | w block Hb IH]; [reflexivity | exact IH |].
  pose proof (built_counted Hb) as Hc.
  destruct (_addBlock block w) as [[b|e] w'] eqn:E; cbn [snd].
  - apply addBlock_resolved in E as (-> & _ & Hh & _). cbn [chain].
    rewrite map_app, length_app, seq_app, map_app, IH. cbn.
    rewrite Hh. unfold counted in Hc. do 2 f_equal. lia.
  - now apply addBlock_rejected in E as (-> & _).
Qed.

(** In a list whose heights count up from [k], the first block of height
    [h] is the block at index [h - k]. *)
Lemma first_of_height (l : list Block) (k : nat) (h : Z) :
  map (@BlockClass.height _) l = map Z.of_nat (seq k (List.length l)) ->
  hd_error (filter (fun p => BlockClass.height p =? h) l)
  = if Z.of_nat k <=? h then nth_error l (Z.to_nat h - k) else None.
Proof.
  revert k. induction l as [|b l IH]; intros k Hl.
  - cbn. destruct (Z.of_nat k <=? h); [|reflexivity].
    now destruct (Z.to_nat h - k)%nat.
  - cbn in Hl. injection Hl as Hb Hl. cbn [filter]. rewrite Hb.
    destruct (Z.eqb_spec (Z.of_nat k) h) as [<- | Hne].
    + cbn. rewrite Z.leb_refl, Nat2Z.id, Nat.sub_diag. reflexivity.
    + rewrite (IH (S k) Hl).
      destruct (Z.leb_spec (Z.of_nat k) h) as [Hle | Hlt].
      * replace (Z.of_nat (S k) <=? h) with true by (symmetry; apply Z.leb_le; lia).
        replace (Z.to_nat h - k)%nat with (S (Z.to_nat h - S k)) by lia.
        reflexivity.
      * replace (Z.of_nat (S k) <=? h) with false by (symmetry; apply Z.leb_gt; lia).
        reflexivity.
Qed.

(** X4: on a chain built by appends each of which is completed before
    the next is started, [getBlockByHeight(h)] resolves with the block
    stored at index [h] when [0 <= h < length], and with [null] for a
    negative height and for a height past the end; it is never rejected. *)
Theorem getBlockByHeight_is_index w (h : Z) :
  built w ->
  getBlockByHeight (self w) h
  = Resolved (if 0 <=? h then nth_error (chain (self w)) (Z.to_nat h) else None).
Proof.
  intros Hb. unfold getBlockByHeight.
  rewrite (first_of_height (chain (self w)) 0 h (built_height_list Hb)).
  cbn [Z.of_nat]. now rewrite Nat.sub_0_r.
Qed.

(** X1: on a chain built by appends, [_addBlock] is never rejected.  It
    resolves with the committed block, which is stored last, keeps the body
    it was handed, has the number of blocks before it as height and the
    clock reading in seconds as time; the height counter becomes that
    height. *)
Theorem addBlock_commits_last block w :
  built w ->
  exists b,
    _addBlock block w
    = (Resolved b,
       mkWorld (mkBlockchain (chain (self w) ++ [b])
                             (Z.of_nat (List.length (chain (self w)))))
               (S (readings w)))
    /\ BlockClass.height b = Z.of_nat (List.length (chain (self w)))
    /\ BlockClass.body b = BlockClass.body block
    /\ BlockClass.time b = seconds_string (getTime (readings w)).
Proof.
  intros Hb. pose proof (built_counted Hb) as Hc.
  destruct (addBlock_total block w Hc) as (b & w' & E).
  exists b. pose proof E as E'.
  apply addBlock_resolved in E' as (Hs & Hr & Hh & Hbody & Ht & _).
  unfold counted in Hc.
  repeat split; try assumption; [|lia].
  rewrite E. f_equal. destruct w' as [bc r]. cbn in Hs, Hr. subst bc r.
  do 2 f_equal. lia.
Qed.

(** X2: an append is rejected exactly on an object whose counter is
    positive while its chain is empty, where there is no last block to
    link to; a rejected append writes nothing, neither block nor counter
    nor clock reading. *)
Theorem addBlock_rejected_iff block w :
  (is_resolved (fst (_addBlock block w)) = false
   <-> 0 < height (self w) /\ chain (self w) = [])
  /\ (is_resolved (fst (_addBlock block w)) = false ->
      snd (_addBlock block w) = w).
Proof.
  split; [split|].
  - destruct (_addBlock block w) as [[b|e] w'] eqn:E; cbn; [discriminate|].
    intros _. apply addBlock_rejected in E as (_ & Hh & Hn). split; [lia | exact Hn].
  - intros [Hh Hn].
    unfold _addBlock, bind, get_self.
    replace (height (self w) >? 0) with true by (symmetry; apply Z.gtb_lt; lia).
    rewrite Hn. reflexivity.
  - destruct (_addBlock block w) as [[b|e] w'] eqn:E; cbn; [discriminate|].
    intros _. now apply addBlock_rejected in E as (-> & _).
Qed.

(** X3: on every object a caller can hold while no append is waiting,
    whether the earlier calls overlapped or not, [getChainHeight] resolves
    with a height between 0 and the index of the last block, never with -1;
    when the calls were run one at a time it is the index of the last
    block. *)
Theorem getChainHeight_within_chain w :
  held w ->
  exists h,
    getChainHeight (self w) = Resolved h
    /\ 0 <= h <= Z.of_nat (List.length (chain (self w))) - 1
    /\ (reachable w -> h = Z.of_nat (List.length (chain (self w))) - 1).
Proof.
  intros Hh. exists (height (self w)). split; [reflexivity|].
  split; [now apply held_within|].
  intros Hr. now destruct (reachable_initialized Hr) as [Hc _].
Qed.

End Lookups.

(** ** Links and hashes of the chains the class grows *)

Section Links.

Context `{Collaborators}.

Lemma grown_built w : grown w -> built w.
Proof. induction 1; auto with chain. Qed.

Lemma initializeChain_grown w : grown w -> grown (snd (initializeChain w)).
Proof.
  intros Hg. rewrite initializeChain_snd.
  destruct (height (self w) =? -1); [now constructor | exact Hg].
Qed.

Lemma submitStar_grown address message signature star w :
  grown w -> grown (snd (submitStar address message signature star w)).
Proof.
  intros Hg. rewrite submitStar_run. cbv zeta.
  destruct (verify message address signature) as [[|]|e]; cbn [snd];
    try (now constructor).
  apply grown_addBlock, initializeChain_grown. now constructor.
Qed.

Lemma constructor_grown n : grown (constructor n).
Proof.
  unfold constructor, detached. cbn [snd].
  apply submitStar_grown, initializeChain_grown. constructor.
Qed.

Lemma not_equal_same (x : option string) : JS.not_equal x x = false.
Proof. destruct x as [s|]; cbn; [now rewrite String.eqb_refl | reflexivity]. Qed.

Lemma not_equal_false (x y : option string) : JS.not_equal x y = false <-> x = y.
Proof.
  split; [|intros ->; apply not_equal_same].
  destruct x as [s|], y as [t|]; cbn; try discriminate; try reflexivity.
  destruct (String.eqb_spec s t); [now subst | discriminate].
Qed.

(** Every block of a grown chain stores the digest of its own fields, the
    hash field being null. *)
Lemma grown_hashes w :
  grown w ->
  forall b, In b (chain (self w)) ->
            BlockClass.hash b = Some (SHA256_JSON (BlockClass.set_hash None b)).
Proof.
  induction 1 as [n | w Hg IH | w data Hg IH]; [intros b [] | exact IH |].
  intros b. destruct (_addBlock (BlockClass.new_Block data) w) as [[c|e] w'] eqn:E;
    cbn [snd].
  - apply addBlock_resolved in E as (-> & _ & _ & _ & _ & _ & Hh). cbn [chain].
    rewrite in_app_iff. intros [Hin | [<- | []]]; [now apply IH | exact Hh].
  - apply addBlock_rejected in E as (-> & _). apply IH.
Qed.

(** The first two blocks of a grown chain have no previous hash. *)
Lemma grown_unlinked w :
  grown w ->
  forall i b, (i <= 1)%nat -> nth_error (chain (self w)) i = Some b ->
              BlockClass.previousBlockHash b = None.
Proof.
  induction 1 as [n | w Hg IH | w data Hg IH].
  - intros [|i] b _; discriminate.
  - exact IH.
  - intros i b Hi. pose proof (built_counted (grown_built Hg)) as Hc.
    destruct (_addBlock (BlockClass.new_Block data) w) as [[c|e] w'] eqn:E;
      cbn [snd].
    + apply addBlock_resolved in E as (-> & _ & _ & _ & _ & Hp & _). cbn [chain].
      destruct (Nat.lt_ge_cases i (List.length (chain (self w)))) as [Hl|Hl].
      * rewrite nth_error_app1 by assumption. now apply IH.
      * rewrite nth_error_app2 by assumption.
        destruct (i - List.length (chain (self w)))%nat as [|k] eqn:Ek;
          [|destruct k; discriminate].
        cbn. intros [= <-]. rewrite Hp.
        destruct (Z.gtb_spec (height (self w)) 0); [|reflexivity].
        unfold counted in Hc. lia.
    + apply addBlock_rejected in E as (-> & _). now apply IH.
Qed.

(** X5: the links of a chain grown by the class with calls run one at a
    time, each completed before the next is started.  Every block has a
    hash, the digest of its own fields with the hash field null; the blocks
    at index 0 and 1 have no previous hash; every block from index 2 on
    carries the hash of the block before it. *)
Theorem grown_chain_links w :
  grown w ->
  forall i b,
    nth_error (chain (self w)) i = Some b ->
    BlockClass.hash b = Some (SHA256_JSON (BlockClass.set_hash None b))
    /\ BlockClass.previousBlockHash b
       = if (i <=? 1)%nat then None else hash_before None (chain (self w)) i.
Proof.
  intros Hg i b Hi. split.
  - apply (grown_hashes Hg). eapply nth_error_In, Hi.
  - destruct (Nat.leb_spec i 1) as [Hle | Hlt].
    + eapply (grown_unlinked Hg); eassumption.
    + destruct i as [|j]; [lia|]. cbn [hash_before].
      destruct (nth_error (chain (self w)) j) as [p|] eqn:Hp.
      * apply (built_links (grown_built Hg) (i := j)); [lia | assumption..].
      * apply nth_error_None in Hp.
        assert (S j < List.length (chain (self w)))%nat
          by (apply nth_error_Some; congruence).
        lia.
Qed.

(** X6: every block of a grown chain passes its own validation. *)
Theorem grown_blocks_validate w b :
  grown w -> In b (chain (self w)) ->
  BlockClass.validate SHA256_JSON b = Resolved true.
Proof.
  intros Hg Hin. unfold BlockClass.validate.
  rewrite (grown_hashes Hg b Hin). cbn [BlockClass.hash BlockClass.set_hash].
  now rewrite String.eqb_refl.
Qed.

Lemma broken_links_snoc (l : list Block) (b : Block) (first : option string) :
  broken_links first (l ++ [b])
  = broken_links first l
    ++ (if (BlockClass.height b >? 0)
           && JS.not_equal (hash_before first l (List.length l))
                           (BlockClass.previousBlockHash b)
        then [broken_link] else []).
Proof.
  revert first. induction l as [|a l IH]; intros first.
  - cbn. now rewrite app_nil_r.
  - cbn [app broken_links List.length]. rewrite IH, app_assoc.
    do 3 f_equal. destruct l as [|a' l]; reflexivity.
Qed.

(** X7: on a chain grown by the class with calls run one at a time, each
    completed before the next is started, [validateChain] logs exactly one
    broken link as soon as the chain has two blocks, the one of the block at
    index 1, and nothing on a chain of the genesis block alone; the log is
    the same once the pending handlers have run. *)
Theorem validateChain_on_grown_chain w :
  grown w ->
  at_resolve (validateChain (self w))
  = (if (2 <=? List.length (chain (self w)))%nat then [broken_link] else [])
  /\ errorLog_eventually (validateChain (self w))
     = at_resolve (validateChain (self w)).
Proof.
  intros Hg. destruct (validateChain_log (self w)) as (-> & -> & _).
  split; [|reflexivity].
  induction Hg as [n | w Hg IH | w data Hg IH]; [reflexivity | exact IH |].
  pose proof (built_counted (grown_built Hg)) as Hc. unfold counted in Hc.
  destruct (_addBlock (BlockClass.new_Block data) w) as [[c|e] w'] eqn:E;
    cbn [snd].
  - apply addBlock_resolved in E as (-> & _ & Hh & _ & _ & Hp & _). cbn [chain].
    rewrite broken_links_snoc, IH, length_app, Hh, Hp. cbn [List.length].
    destruct (chain (self w)) as [|g [|b l]] eqn:El.
    + cbn in Hc. rewrite Hc. reflexivity.
    + cbn in Hc. rewrite Hc. cbn.
      rewrite (grown_hashes Hg g) by (rewrite El; now left). reflexivity.
    + replace (height (self w) >? 0) with true
        by (symmetry; apply Z.gtb_lt; cbn [List.length] in Hc; lia).
      unfold at_minus1, hash_before. cbn [List.length Nat.sub].
      rewrite not_equal_same, andb_false_r.
      now rewrite Nat.add_1_r.
  - now apply addBlock_rejected in E as (-> & _).
Qed.

End Links.

(** ** What the writes keep, and what the reads see after them *)

Section Composition.

Context `{Collaborators}.

Lemma hash_before_cons first (b : Block) (l : list Block) (i : nat) :
  hash_before first (b :: l) (S i) = hash_before (BlockClass.hash b) l i.
Proof. destruct i; reflexivity. Qed.

Lemma broken_links_nil_iff (l : list Block) (first : option string) :
  broken_links first l = []
  <-> forall i b, nth_error l i = Some b -> 0 < BlockClass.height b ->
                  BlockClass.previousBlockHash b = hash_before first l i.
Proof.
  revert first. induction l as [|a l IH]; intros first.
  - split; [intros _ [|i] b; discriminate | reflexivity].
  - cbn [broken_links]. split.
    + intros Hnil. apply app_eq_nil in Hnil as [Ha Hl].
      intros [|i] b.
      * cbn. intros [= <-] Hpos.
        destruct (Z.gtb_spec (BlockClass.height a) 0); [|lia].
        cbn [andb] in Ha.
        destruct (JS.not_equal first (BlockClass.previousBlockHash a)) eqn:En;
          [discriminate|].
        symmetry. now apply not_equal_false.
      * rewrite hash_before_cons. cbn [nth_error]. now apply IH.
    + intros Hall.
      replace (broken_links (BlockClass.hash a) l) with (@nil LogEntry).
      * rewrite app_nil_r.
        destruct (Z.gtb_spec (BlockClass.height a) 0) as [Hpos|]; [|reflexivity].
        cbn [andb].
        rewrite (proj2 (not_equal_false first (BlockClass.previousBlockHash a)));
          [reflexivity|].
        symmetry. now apply (Hall 0%nat a).
      * symmetry. apply IH. intros i b Hi Hpos.
        rewrite <- hash_before_cons with (first := first). now apply (Hall (S i) b).
Qed.

(** X8: whatever the state of the chain, the log of [validateChain] is
    empty when it resolves exactly when every stored block of positive
    height carries, as previous hash, the hash stored in the block before it
    in the array ([null] for the first); blocks of height 0 or less are not
    checked. *)
Theorem validateChain_empty_log_iff (bc : Blockchain) :
  at_resolve (validateChain bc) = []
  <-> forall i b, nth_error (chain bc) i = Some b ->
                  0 < BlockClass.height b ->
                  BlockClass.previousBlockHash b = hash_before None (chain bc) i.
Proof.
  destruct (validateChain_log bc) as (-> & _). apply broken_links_nil_iff.
Qed.

Lemma extends_refl k w : extends_by k w w.
Proof.
  exists []. rewrite app_nil_r. cbn. repeat split; lia.
Qed.

Lemma extends_trans j k w1 w2 w3 :
  extends_by j w1 w2 -> extends_by k w2 w3 -> extends_by (j + k) w1 w3.
Proof.
  intros (l1 & E1 & L1 & H1) (l2 & E2 & L2 & H2). exists (l1 ++ l2).
  rewrite E2, E1, <- app_assoc, length_app. repeat split; lia.
Qed.

Lemma addBlock_extends block w : extends_by 1 w (snd (_addBlock block w)).
Proof.
  destruct (_addBlock block w) as [[b|e] w'] eqn:E; cbn [snd].
  - apply addBlock_resolved in E as (Hs & _). exists [b]. rewrite Hs. cbn.
    repeat split; lia.
  - apply addBlock_rejected in E as (-> & _). apply extends_refl.
Qed.

Lemma initializeChain_extends w : extends_by 1 w (snd (initializeChain w)).
Proof.
  rewrite initializeChain_snd.
  destruct (height (self w) =? -1); [apply addBlock_extends | apply extends_refl].
Qed.

Lemma initializeChain_resolves w : fst (initializeChain w) = Resolved tt.
Proof.
  unfold initializeChain, bind, get_self.
  destruct (Z.eqb_spec (height (self w)) (-1)) as [Hh|]; [|reflexivity].
  unfold _addBlock, bind, get_self. rewrite Hh. reflexivity.
Qed.

(** X9: [initializeChain] is never rejected and is idempotent on every
    object: a second call right after the first resolves and changes
    nothing, not even the number of clock readings. *)
Theorem initializeChain_idempotent w :
  fst (initializeChain w) = Resolved tt
  /\ initializeChain (snd (initializeChain w))
     = (Resolved tt, snd (initializeChain w)).
Proof.
  split; [apply initializeChain_resolves|].
  apply initializeChain_idle. rewrite initializeChain_snd.
  destruct (Z.eqb_spec (height (self w)) (-1)) as [Hh|Hh]; [|exact Hh].
  unfold _addBlock, bind, get_self. rewrite Hh. cbn. discriminate.
Qed.

Lemma submitStar_extends address message signature star w :
  extends_by 2 w (snd (submitStar address message signature star w)).
Proof.
  rewrite submitStar_run. cbv zeta.
  destruct (verify message address signature) as [[|]|e]; cbn [snd];
    try (exists []; cbn; rewrite app_nil_r; repeat split; lia).
  apply (extends_trans (j := 1) (k := 1)) with
    (w2 := snd (initializeChain (mkWorld (self w) (S (readings w))))).
  - apply (initializeChain_extends (mkWorld (self w) (S (readings w)))).
  - apply addBlock_extends.
Qed.

(** X10: the writes only append.  On every object, [submitStar] leaves
    the blocks of the chain in place and adds at most two after them (the
    genesis block when it is missing, and the star), [initializeChain] and
    [_addBlock] at most one; the counter grows by the number of blocks
    added; a rejected [submitStar] adds none. *)
Theorem writes_only_append address message signature star block w :
  extends_by 2 w (snd (submitStar address message signature star w))
  /\ extends_by 1 w (snd (initializeChain w))
  /\ extends_by 1 w (snd (_addBlock block w))
  /\ (is_resolved (fst (submitStar address message signature star w)) = false ->
      self (snd (submitStar address message signature star w)) = self w).
Proof.
  repeat split;
    [apply submitStar_extends | apply initializeChain_extends | apply addBlock_extends |].
  rewrite submitStar_run. cbv zeta.
  destruct (verify message address signature) as [[|]|e]; cbn [fst snd self];
    try reflexivity.
  destruct (Z.eqb_spec (height (self w)) (-1)) as [Hh|Hh].
  - unfold initializeChain, bind at 1, get_self. cbn [self]. rewrite Hh. cbn [Z.eqb].
    unfold _addBlock, bind, get_self, put_self, ret, Date_getTime. cbn. rewrite Hh.
    cbn. discriminate.
  - rewrite initializeChain_idle by exact Hh. cbn [snd].
    destruct (_addBlock _ _) as [[b|e] w'] eqn:E; cbn; [discriminate|].
    intros _. now apply addBlock_rejected in E as (-> & _).
Qed.

Lemma extends_keeps_first k w w' (g : Block) :
  extends_by k w w' ->
  nth_error (chain (self w)) 0 = Some g -> nth_error (chain (self w')) 0 = Some g.
Proof.
  intros (l & -> & _). destruct (chain (self w)); [discriminate | exact (fun E => E)].
Qed.

(** X11: the genesis block stays first.  On every object a caller can
    hold, the block at index 0 has height 0, no previous hash, and a body
    that decodes to the marker [{ data: 'Genesis Block' }]. *)
Theorem genesis_stays_first w :
  reachable w ->
  exists g,
    nth_error (chain (self w)) 0 = Some g
    /\ BlockClass.height g = 0
    /\ BlockClass.previousBlockHash g = None
    /\ BlockClass.getBData g = Resolved (DataObject "Genesis Block").
Proof.
  assert (Hgen : forall t, BlockClass.height (genesis_block t) = 0
                           /\ BlockClass.previousBlockHash (genesis_block t) = None
                           /\ BlockClass.getBData (genesis_block t)
                              = Resolved (DataObject "Genesis Block")).
  { intros t. repeat split. unfold BlockClass.getBData. cbn.
    now rewrite decode_encode. }
  induction 1 as [n | w Hr IH | w block Hr IH | w Hr IH | w a m s st Hr IH].
  - exists (genesis_block (getTime n)). split; [|apply Hgen].
    unfold constructor, detached. cbn [snd]. rewrite initializeChain_empty. cbn [snd].
    eapply extends_keeps_first; [apply submitStar_extends | reflexivity].
  - exact IH.
  - destruct IH as (g & Hg & Hrest). exists g. split; [|exact Hrest].
    eapply extends_keeps_first; [apply addBlock_extends | exact Hg].
  - destruct IH as (g & Hg & Hrest). exists g. split; [|exact Hrest].
    eapply extends_keeps_first; [apply initializeChain_extends | exact Hg].
  - destruct IH as (g & Hg & Hrest). exists g. split; [|exact Hrest].
    eapply extends_keeps_first; [apply submitStar_extends | exact Hg].
Qed.

End Composition.

(** ** A submission and the reads after it *)

Section AfterSubmission.

Context `{Collaborators}.

(** A resolved submission on a reachable object, step by step. *)
Lemma submitStar_resolved address message signature star w b :
  reachable w ->
  fst (submitStar address message signature star w) = Resolved b ->
  verify message address signature = Resolved true
  /\ _addBlock (BlockClass.new_Block (StarObject address star))
               (mkWorld (self w) (S (readings w)))
     = submitStar address message signature star w.
Proof.
  intros Hr. destruct (reachable_initialized Hr) as [_ Hh].
  rewrite submitStar_run. cbv zeta.
  destruct (verify message address signature) as [[|]|e]; try discriminate.
  rewrite initializeChain_idle by (cbn; lia). now split.
Qed.

Lemma submitStar_resolved_held address message signature star w b :
  held w ->
  fst (submitStar address message signature star w) = Resolved b ->
  verify message address signature = Resolved true
  /\ _addBlock (BlockClass.new_Block (StarObject address star))
               (mkWorld (self w) (S (readings w)))
     = submitStar address message signature star w.
Proof.
  intros Hh. destruct (held_within Hh) as [Hlo _].
  rewrite submitStar_run. cbv zeta.
  destruct (verify message address signature) as [[|]|e]; try discriminate.
  rewrite initializeChain_idle by (cbn; lia). now split.
Qed.

(** X12: the block a submission resolves with.  On every object a caller
    can hold while no append is waiting, whether the earlier calls
    overlapped or not, when a call of [submitStar] that runs alone resolves,
    the verifier has accepted the signature, and the block it resolves with
    is the last of the chain, has the counter plus one as height, which
    becomes the counter, the second clock reading of the call in seconds as
    time, and a body that decodes to the owner and the star that were
    submitted; when the calls were run one at a time the height is the
    former number of blocks. *)
Theorem submitStar_block address message signature star w b :
  held w ->
  fst (submitStar address message signature star w) = Resolved b ->
  verify message address signature = Resolved true
  /\ at_minus1 (chain (self (snd (submitStar address message signature star w))))
     = Some b
  /\ BlockClass.height b = height (self w) + 1
  /\ height (self (snd (submitStar address message signature star w)))
     = BlockClass.height b
  /\ BlockClass.time b = seconds_string (getTime (S (readings w)))
  /\ BlockClass.getBData b = Resolved (StarObject address star)
  /\ (reachable w ->
      BlockClass.height b = Z.of_nat (List.length (chain (self w)))).
Proof.
  intros Hh Hb.
  destruct (submitStar_resolved_held _ _ _ _ Hh Hb) as [Hv Hrun].
  split; [exact Hv|]. rewrite <- Hrun in Hb |- *.
  destruct (_addBlock _ _) as [r w'] eqn:E. cbn [fst snd] in *. subst r.
  apply addBlock_resolved in E as (-> & _ & Hheight & Hbody & Ht & _).
  cbn [chain height self readings] in *.
  repeat split.
  - apply at_minus1_last.
  - exact Hheight.
  - now rewrite Hheight.
  - exact Ht.
  - unfold BlockClass.getBData. rewrite Hbody. cbn. now rewrite decode_encode.
  - intros Hr. destruct (reachable_initialized Hr) as [Hc _].
    unfold counted in Hc. lia.
Qed.

(** X13: a submitted block is found again.  After a resolved [submitStar]
    on an object a caller can hold, [getBlockByHeight] at the height of the
    block resolves with that block, and [getChainHeight] with that height. *)
Theorem submitted_block_is_found address message signature star w b :
  reachable w ->
  fst (submitStar address message signature star w) = Resolved b ->
  let w' := snd (submitStar address message signature star w) in
  getBlockByHeight (self w') (BlockClass.height b) = Resolved (Some b)
  /\ getChainHeight (self w') = Resolved (BlockClass.height b).
Proof.
  intros Hr Hb w'.
  assert (Hbuilt : built w').
  { apply submitStar_built. now apply reachable_built. }
  destruct (reachable_initialized Hr) as [Hc _].
  destruct (submitStar_resolved _ _ _ _ Hr Hb) as [_ Hrun].
  assert (Hs : self w' = mkBlockchain (chain (self w) ++ [b]) (height (self w) + 1)
               /\ BlockClass.height b = Z.of_nat (List.length (chain (self w)))).
  { subst w'. rewrite <- Hrun in Hb |- *.
    destruct (_addBlock _ _) as [r w''] eqn:E. cbn [fst snd] in *. subst r.
    apply addBlock_resolved in E as (-> & _ & Hh & _).
    cbn [self] in Hh. unfold counted in Hc. split; [reflexivity | lia]. }
  destruct Hs as [Hs Hh]. split.
  - unfold getBlockByHeight.
    rewrite (first_of_height (chain (self w')) 0 (BlockClass.height b)
               (built_height_list Hbuilt)).
    rewrite Hh, Hs. cbn [Z.of_nat chain].
    replace (0 <=? Z.of_nat (List.length (chain (self w)))) with true
      by (symmetry; apply Z.leb_le; lia).
    rewrite Nat.sub_0_r, Nat2Z.id, nth_error_app2, Nat.sub_diag by lia.
    reflexivity.
  - unfold getChainHeight. rewrite Hs, Hh. cbn [height]. unfold counted in Hc.
    f_equal. lia.
Qed.

Lemma stars_eventually_filter (bc : Blockchain) (address : string) :
  stars_eventually address (getStarsByWalletAddress bc address)
  = filter (owner_is address)
           (map (fun block => decode (BlockClass.body block)) (chain bc)).
Proof.
  unfold stars_eventually, getStarsByWalletAddress. cbn [at_resolve pending].
  rewrite queued_decodes. cbn [app]. now rewrite run_decodes.
Qed.

(** X14: a submitted star is listed for its owner.  After a resolved
    [submitStar] on an object a caller can hold, the array of
    [getStarsByWalletAddress], once its callbacks have run, is the array of
    before followed by the owner and star just submitted when the query is
    for the submitting address, and the array of before for every other
    address. *)
Theorem submitted_star_is_listed address message signature star w b (query : string) :
  reachable w ->
  fst (submitStar address message signature star w) = Resolved b ->
  let w' := snd (submitStar address message signature star w) in
  stars_eventually query (getStarsByWalletAddress (self w') query)
  = stars_eventually query (getStarsByWalletAddress (self w) query)
    ++ (if String.eqb address query then [StarObject address star] else []).
Proof.
  intros Hr Hb w'. rewrite !stars_eventually_filter.
  destruct (submitStar_resolved _ _ _ _ Hr Hb) as [_ Hrun].
  subst w'. rewrite <- Hrun in Hb |- *.
  destruct (_addBlock _ _) as [r w''] eqn:E. cbn [fst snd] in *. subst r.
  apply addBlock_resolved in E as (-> & _ & _ & Hbody & _).
  cbn [chain self]. rewrite map_app, filter_app. f_equal.
  cbn [map filter]. rewrite Hbody. cbn. rewrite decode_encode.
  unfold owner_is. cbn. reflexivity.
Qed.

End AfterSubmission.

(** ** Time stamps: decimal strings and what [parseInt] reads back *)

Section Decimal.

Lemma append_assoc (s1 s2 s3 : string) :
  ((s1 ++ s2) ++ s3 = s1 ++ (s2 ++ s3))%string.
Proof. induction s1 as [|a s1 IH]; cbn; [reflexivity | now rewrite IH]. Qed.

Lemma of_lu_to_lu (n : N) : DecimalPos.Unsigned.of_lu (DecimalPos.Unsigned.to_lu n) = n.
Proof.
  destruct n as [|p]; [reflexivity|]. cbn [DecimalPos.Unsigned.to_lu].
  rewrite <- DecimalPos.Unsigned.of_lu_rev. exact (DecimalPos.Unsigned.of_to p).
Qed.

Lemma to_lu_normal (n : N) : DecimalFacts.lnorm (DecimalPos.Unsigned.to_lu n) = DecimalPos.Unsigned.to_lu n.
Proof. now rewrite <- DecimalPos.Unsigned.to_of_lu, of_lu_to_lu. Qed.

Lemma string_of_revapp (d d' : Decimal.uint) :
  NilEmpty.string_of_uint (Decimal.revapp d d')
  = (NilEmpty.string_of_uint (Decimal.rev d) ++ NilEmpty.string_of_uint d')%string.
Proof.
  revert d'. unfold Decimal.rev.
  induction d as [|d IH|d IH|d IH|d IH|d IH|d IH|d IH|d IH|d IH|d IH];
    intros d'; cbn [Decimal.revapp]; [reflexivity | ..];
    rewrite IH, (IH (_ Decimal.Nil)), append_assoc; reflexivity.
Qed.

(** The decimal string of a positive number, from its little-endian
    digits. *)
Lemma toString_of_lu (n : N) :
  (0 < n)%N ->
  JS.toString n = NilEmpty.string_of_uint (Decimal.rev (DecimalPos.Unsigned.to_lu n)).
Proof.
  destruct n as [|p]; [lia|]. intros _.
  unfold JS.toString, NilZero.string_of_uint. cbn [N.to_uint DecimalPos.Unsigned.to_lu].
  pose proof (DecimalPos.Unsigned.to_uint_nonnil p) as Hn. unfold Pos.to_uint in *.
  now destruct (Decimal.rev (Pos.to_little_uint p)).
Qed.

Lemma lnorm_tail (L : Decimal.uint) :
  (DecimalPos.Unsigned.of_lu L <> 0)%N ->
  (match DecimalFacts.nztail L with Decimal.Nil => Decimal.Nil | d => Decimal.D0 d end = Decimal.D0 L \/ DecimalFacts.nztail L = L) ->
  DecimalFacts.lnorm L = L.
Proof.
  intros Hnz Hn. unfold DecimalFacts.lnorm.
  assert (Hne : DecimalFacts.nztail L <> Decimal.Nil) by (intros E; now apply DecimalPos.Unsigned.of_lu_0 in E).
  destruct Hn as [Hn | Hn].
  - destruct (DecimalFacts.nztail L) eqn:E; try congruence; injection Hn as <-; reflexivity.
  - rewrite Hn in *. now destruct L.
Qed.

Lemma lnorm_tl (d : Decimal.uint) :
  DecimalFacts.lnorm d = d -> (DecimalPos.Unsigned.of_lu (DecimalPos.Unsigned.tl d) <> 0)%N -> DecimalFacts.lnorm (DecimalPos.Unsigned.tl d) = DecimalPos.Unsigned.tl d.
Proof.
  intros Hn Hz. apply lnorm_tail; [exact Hz|].
  unfold DecimalFacts.lnorm in Hn.
  destruct d as [|L|L|L|L|L|L|L|L|L|L]; cbn [DecimalPos.Unsigned.tl DecimalFacts.nztail] in *;
    [now contradiction Hz | | right; now injection Hn ..].
  destruct (DecimalFacts.nztail L) eqn:E; [|left; exact Hn ..].
  injection Hn as <-. now contradiction Hz.
Qed.

Lemma hd_digit (d : Decimal.uint) : (DecimalPos.Unsigned.hd d < 10)%N.
Proof. destruct d; cbn; lia. Qed.

Lemma string_of_rev_digits (d : Decimal.uint) :
  d <> Decimal.Nil ->
  NilEmpty.string_of_uint (Decimal.rev d)
  = (NilEmpty.string_of_uint (Decimal.rev (DecimalPos.Unsigned.tl d))
       ++ String (digit_char (DecimalPos.Unsigned.hd d)) EmptyString)%string.
Proof.
  intros Hd. destruct d; [now contradiction Hd | ..];
    unfold Decimal.rev at 1; cbn [Decimal.revapp DecimalPos.Unsigned.tl DecimalPos.Unsigned.hd]; now rewrite string_of_revapp.
Qed.

(** The decimal string of a number of two digits or more is the string of
    its tenth followed by its last digit. *)
Lemma toString_step (n : N) :
  (10 <= n)%N ->
  JS.toString n = (JS.toString (n / 10) ++ last_digit n)%string.
Proof.
  intros Hn.
  assert (Hq : (0 < n / 10)%N) by (apply N.div_str_pos; lia).
  rewrite (toString_of_lu (n := n)) by lia.
  rewrite (toString_of_lu Hq).
  pose proof (of_lu_to_lu n) as Hv. rewrite DecimalPos.Unsigned.of_lu_eqn in Hv.
  pose proof (hd_digit (DecimalPos.Unsigned.to_lu n)) as Hk.
  assert (Hdiv : (n / 10 = DecimalPos.Unsigned.of_lu (DecimalPos.Unsigned.tl (DecimalPos.Unsigned.to_lu n)))%N)
    by (symmetry; apply (N.div_unique n 10 _ (DecimalPos.Unsigned.hd (DecimalPos.Unsigned.to_lu n))); lia).
  assert (Hmod : (n mod 10 = DecimalPos.Unsigned.hd (DecimalPos.Unsigned.to_lu n))%N)
    by (symmetry; apply (N.mod_unique n 10 (DecimalPos.Unsigned.of_lu (DecimalPos.Unsigned.tl (DecimalPos.Unsigned.to_lu n)))); lia).
  assert (HL : DecimalPos.Unsigned.to_lu (n / 10) = DecimalPos.Unsigned.tl (DecimalPos.Unsigned.to_lu n)).
  { rewrite Hdiv, DecimalPos.Unsigned.to_of_lu. apply lnorm_tl; [apply to_lu_normal | lia]. }
  unfold last_digit. rewrite HL, Hmod. apply string_of_rev_digits.
  intros E. rewrite E in Hv. cbn in Hv. lia.
Qed.

Ltac digit_cases k Hk :=
  let E := fresh "E" in
  assert (E : (k = 0 \/ k = 1 \/ k = 2 \/ k = 3 \/ k = 4 \/ k = 5 \/ k = 6
               \/ k = 7 \/ k = 8 \/ k = 9)%N) by lia;
  clear Hk;
  destruct E as [E|[E|[E|[E|[E|[E|[E|[E|[E|E]]]]]]]]]; subst k.

Lemma toString_small (n : N) : (n < 10)%N -> JS.toString n = last_digit n.
Proof. intros Hn. digit_cases n Hn; reflexivity. Qed.

Lemma digit_value_char (k : N) :
  (k < 10)%N -> JS.digit_value 10 (digit_char k) = Some (Z.of_N k).
Proof. intros Hk. digit_cases k Hk; reflexivity. Qed.

(** Reading the decimal string of a number back gives the number, whatever
    follows the string. *)
Lemma digits_toString (n : N) (rest : string) :
  JS.digits 10 None (JS.toString n ++ rest)
  = JS.digits 10 (Some (Z.of_N n)) rest.
Proof.
  revert rest. induction n as [n IH] using (well_founded_induction N.lt_wf_0).
  intros rest. destruct (N.lt_ge_cases n 10) as [Hlt | Hge].
  - rewrite toString_small by exact Hlt. unfold last_digit. cbn [append JS.digits].
    rewrite digit_value_char by (apply N.mod_lt; lia).
    rewrite N.mod_small by exact Hlt. do 2 f_equal; lia.
  - rewrite toString_step, append_assoc by exact Hge.
    rewrite IH by (apply N.div_lt; lia).
    unfold last_digit. cbn [append JS.digits].
    rewrite digit_value_char by (apply N.mod_lt; lia).
    do 2 f_equal. rewrite (N.div_mod n 10) at 3 by lia. lia.
Qed.

(** The first character of a decimal string is a digit, and so is the
    second when there is one. *)
Lemma toString_head (n : N) :
  exists k r,
    JS.toString n = String (digit_char k) r /\ (k < 10)%N
    /\ (r = EmptyString
        \/ exists k2 r2, r = String (digit_char k2) r2 /\ (k2 < 10)%N).
Proof.
  induction n as [n IH] using (well_founded_induction N.lt_wf_0).
  destruct (N.lt_ge_cases n 10) as [Hlt | Hge].
  - exists (n mod 10)%N, EmptyString. rewrite toString_small by exact Hlt.
    repeat split; [apply N.mod_lt; lia | now left].
  - destruct (IH (n / 10)%N) as (k & r & E & Hk & Hr); [apply N.div_lt; lia|].
    exists k, (r ++ last_digit n)%string. rewrite toString_step, E by exact Hge.
    repeat split; [exact Hk|]. right. destruct Hr as [-> | (k2 & r2 & -> & Hk2)].
    + exists (n mod 10)%N, EmptyString. split; [reflexivity | apply N.mod_lt; lia].
    + exists k2, (r2 ++ last_digit n)%string. now split.
Qed.

Lemma parseInt_decimal (k : N) (r : string) :
  (k < 10)%N ->
  (r = EmptyString \/ exists k2 r2, r = String (digit_char k2) r2 /\ (k2 < 10)%N) ->
  JS.parseInt (String (digit_char k) r)
  = option_map (Z.mul 1) (JS.digits 10 None (String (digit_char k) r)).
Proof.
  intros Hk Hr. digit_cases k Hk; try reflexivity.
  destruct Hr as [-> | (k2 & r2 & -> & Hk2)]; [reflexivity|].
  digit_cases k2 Hk2; reflexivity.
Qed.

Lemma parseInt_toString (n : N) : JS.parseInt (JS.toString n) = Some (Z.of_N n).
Proof.
  destruct (toString_head n) as (k & r & E & Hk & Hr).
  pose proof (digits_toString n EmptyString) as Hd.
  assert (Hnil : forall s, (s ++ "")%string = s)
    by (induction s as [|a s IH]; cbn; [reflexivity | now rewrite IH]).
  rewrite Hnil in Hd. rewrite E in *.
  rewrite parseInt_decimal, Hd by assumption. cbn [JS.digits option_map].
  f_equal. lia.
Qed.

Lemma slice_three (s : string) (a b c : ascii) :
  JS.slice_0_minus3 (s ++ String a (String b (String c EmptyString))) = s.
Proof.
  unfold JS.slice_0_minus3. rewrite list_ascii_of_append, length_app.
  cbn [list_ascii_of_string List.length].
  replace (List.length (list_ascii_of_string s) + 3 - 3)%nat
    with (List.length (list_ascii_of_string s) + 0)%nat by lia.
  rewrite firstn_app_2. cbn [firstn]. rewrite app_nil_r.
  apply string_of_list_ascii_of_string.
Qed.

Lemma seconds_of_large (t : N) :
  (1000 <= t)%N -> seconds_string t = JS.toString (t / 1000).
Proof.
  intros Ht. unfold seconds_string.
  assert (H1 : (10 <= t / 10)%N) by (apply N.div_le_lower_bound; lia).
  assert (H2 : (10 <= t / 10 / 10)%N)
    by (apply N.div_le_lower_bound; [lia|]; apply N.div_le_lower_bound; lia).
  rewrite (toString_step (n := t)) by lia.
  rewrite (toString_step H1), (toString_step H2).
  rewrite !N.Div0.div_div. change (10 * 10 * 10)%N with 1000%N.
  unfold last_digit. rewrite !append_assoc. cbn [append].
  apply slice_three.
Qed.

Lemma seconds_of_small (t : N) : (t < 1000)%N -> seconds_string t = EmptyString.
Proof.
  intros Ht. unfold seconds_string.
  destruct (N.lt_ge_cases t 10) as [H1 | H1].
  - now rewrite toString_small.
  - rewrite toString_step by exact H1.
    destruct (N.lt_ge_cases (t / 10) 10) as [H2 | H2].
    + now rewrite toString_small.
    + rewrite (toString_step H2).
      assert (H3 : (t / 10 / 10 < 10)%N).
      { rewrite N.Div0.div_div. apply N.Div0.div_lt_upper_bound. lia. }
      now rewrite toString_small.
Qed.

(** X15: the time stamp is the clock in whole seconds.  For a clock
    reading of 1000 milliseconds or more, the string [_addBlock] stores as
    [time] is the decimal string of the reading divided by 1000, and
    [submitStar] reads that quotient as the current time; for a reading
    under one second the string is empty and the current time is [NaN]. *)
Theorem time_stamp_is_whole_seconds (t : N) :
  seconds_string t = (if (1000 <=? t)%N then JS.toString (t / 1000) else EmptyString)
  /\ current_time t = (if (1000 <=? t)%N then Some (Z.of_N (t / 1000)) else None).
Proof.
  unfold current_time. destruct (N.leb_spec 1000 t) as [Ht | Ht].
  - rewrite seconds_of_large by exact Ht. split; [reflexivity | apply parseInt_toString].
  - rewrite seconds_of_small by exact Ht. split; reflexivity.
Qed.

Lemma uint_chars_decimal (d : Decimal.uint) (c : ascii) :
  In c (list_ascii_of_string (NilEmpty.string_of_uint d)) -> c <> ":"%char.
Proof.
  induction d as [|d IH|d IH|d IH|d IH|d IH|d IH|d IH|d IH|d IH|d IH];
    cbn; intros Hin; [contradiction | ..];
    (destruct Hin as [<- | Hin]; [discriminate | now apply IH]).
Qed.

Lemma toString_colon_free (t : N) : colon_free (JS.toString t).
Proof.
  unfold colon_free, JS.toString, NilZero.string_of_uint. intros Hin.
  destruct (N.to_uint t) eqn:E;
    try (rewrite <- E in Hin; now apply uint_chars_decimal in Hin).
  cbn in Hin. destruct Hin as [Hin | []]. discriminate.
Qed.

Lemma split_at_colon (a rest : string) :
  colon_free a ->
  JS.split ":" (a ++ String ":" rest) = a :: JS.split ":" rest.
Proof.
  unfold colon_free. induction a as [|c a IH]; intros Hfree.
  - reflexivity.
  - cbn [append JS.split].
    destruct (Ascii.eqb_spec c ":"%char) as [-> | Hc].
    + exfalso. apply Hfree. now left.
    + rewrite IH; [reflexivity|]. intros Hin. apply Hfree. now right.
Qed.

Lemma time_message_of_format (address : string) (t : N) :
  colon_free address ->
  time_message (challenge_format address t) = Some (Z.of_N t).
Proof.
  intros Hfree. unfold time_message, challenge_format.
  change (":" ++ JS.toString t ++ ":starRegistry")%string
    with (String ":" (JS.toString t ++ String ":" "starRegistry")).
  rewrite (split_at_colon _ Hfree).
  rewrite (split_at_colon _ (toString_colon_free t)).
  cbn [nth_error JS.parseInt_opt]. apply parseInt_toString.
Qed.

(** X16: the time stamp of a well-formed challenge is read back.  For an
    address without a colon and a number of seconds [t] below 2^53,
    [parseInt(message.split(':')[1])] on the message
    [<address>:<t>:starRegistry] is [t]. *)
Theorem time_message_reads_format (address : string) (t : N) :
  colon_free address ->
  (t < 2 ^ 53)%N ->
  time_message (challenge_format address t) = Some (Z.of_N t).
Proof. intros Hfree _. now apply time_message_of_format. Qed.

(** X17: the elapsed time of a well-formed challenge.  For an address
    without a colon, a challenge stamped [t0] seconds with [t0] below 2^53,
    and a clock reading [t] of 1000 milliseconds or more and below 2^53,
    the elapsed time [submitStar] computes is the clock in whole seconds
    minus [t0]; it is negative for a challenge stamped in the future. *)
Theorem elapsed_time_of_format (address : string) (t0 t : N) :
  colon_free address ->
  (t0 < 2 ^ 53)%N ->
  (1000 <= t < 2 ^ 53)%N ->
  elapsed_time (challenge_format address t0) t
  = Some (Z.of_N (t / 1000) - Z.of_N t0).
Proof.
  intros Hfree _ [Ht _]. unfold elapsed_time, current_time.
  rewrite time_message_of_format by exact Hfree.
  rewrite seconds_of_large by exact Ht.
  now rewrite parseInt_toString.
Qed.

End Decimal.

(** ** The theorems at work on the sample world *)

Import Sample.


Lemma submitStar_accepts_expired_challenge_witness :
  reachable sample_world
  /\ elapsed_time test_message (getTime (readings sample_world)) = Some 58444565
  /\ 300 < 58444565
  /\ verify test_message test_address test_signature = Resolved true
  /\ exists b,
      fst (submitStar test_address test_message test_signature test_star sample_world)
      = Resolved b
      /\ self (snd (submitStar test_address test_message test_signature test_star
                               sample_world))
         = mkBlockchain (chain (self sample_world) ++ [b])
                        (height (self sample_world) + 1).
Proof.
  assert (Hr : reachable sample_world) by apply reach_constructor.
  assert (He : elapsed_time test_message (getTime (readings sample_world))
               = Some 58444565) by reflexivity.
  assert (Hw : 300 < 58444565) by reflexivity.
  assert (Hv : verify test_message test_address test_signature = Resolved true)
    by reflexivity.
  exact (conj Hr (conj He (conj Hw (conj Hv
           (@submitStar_accepts_expired_challenge _ _ test_address test_message
              test_signature test_star sample_world 58444565 Hr He Hw Hv))))).
Defined.

Lemma submitStar_fails_clean_or_appends_one_witness :
  reachable sample_world
  /\ (verify "m" alice "bad" = Resolved false ->
      fst (submitStar alice "m" "bad" a_star sample_world)
      = Rejected "Message with address and signature failed the validation")
  /\ match fst (submitStar alice "m" "bad" a_star sample_world) with
     | Rejected _ =>
         self (snd (submitStar alice "m" "bad" a_star sample_world))
         = self sample_world
     | Resolved b =>
         self (snd (submitStar alice "m" "bad" a_star sample_world))
         = mkBlockchain (chain (self sample_world) ++ [b])
                        (height (self sample_world) + 1)
     end.
Proof.
  assert (Hr : reachable sample_world) by apply reach_constructor.
  exact (conj Hr
           (@submitStar_fails_clean_or_appends_one _ _ alice "m" "bad" a_star
              sample_world Hr)).
Defined.

Lemma constructor_leaves_two_blocks_witness :
  verify test_message test_address test_signature = Resolved true
  /\ height (self (constructor 0)) = 1
  /\ exists b,
      chain (self (constructor 0)) = [genesis_block (getTime 0); b]
      /\ BlockClass.previousBlockHash (genesis_block (getTime 0)) = None
      /\ BlockClass.body (genesis_block (getTime 0)) = encode genesis_data
      /\ BlockClass.height b = 1
      /\ BlockClass.body b = encode (StarObject test_address test_star).
Proof.
  assert (Hv : verify test_message test_address test_signature = Resolved true)
    by reflexivity.
  exact (conj Hv (@constructor_leaves_two_blocks _ _ 0%nat Hv)).
Defined.

Lemma validateChain_misses_hash_errors_witness :
  In tampered_genesis (chain tampered_chain)
  /\ BlockClass.validate SHA256_JSON tampered_genesis = Resolved false
  /\ broken_links None (chain tampered_chain) = []
  /\ at_resolve (validateChain tampered_chain) = []
  /\ errorLog_eventually (validateChain tampered_chain) = [].
Proof.
  assert (Hi : In tampered_genesis (chain tampered_chain)) by (left; reflexivity).
  assert (Hv : BlockClass.validate SHA256_JSON tampered_genesis = Resolved false)
    by reflexivity.
  assert (Hl : broken_links None (chain tampered_chain) = []) by reflexivity.
  exact (conj Hi (conj Hv (conj Hl
           (@validateChain_misses_hash_errors _ _ tampered_chain tampered_genesis
              Hi Hv Hl)))).
Defined.

(** The string functions on the values the class meets. *)

Example toString_ex : JS.toString 1641555438123 = "1641555438123".
Proof. reflexivity. Qed.

Example slice_ex : JS.slice_0_minus3 (JS.toString 1641555438123) = "1641555438".
Proof. reflexivity. Qed.

Example slice_short_ex : JS.slice_0_minus3 "12" = "".
Proof. reflexivity. Qed.

Example split_ex :
  JS.split ":" "1PqX:1641555438:starRegistry" = ["1PqX"; "1641555438"; "starRegistry"].
Proof. reflexivity. Qed.

Example parseInt_ex : JS.parseInt "1641555438" = Some 1641555438.
Proof. reflexivity. Qed.

Example parseInt_nan_ex : JS.parseInt_opt None = None /\ JS.parseInt "" = None.
Proof. split; reflexivity. Qed.

Example parseInt_hex_ex : JS.parseInt "  -0x1fz" = Some (-31).
Proof. reflexivity. Qed.

(** The sample world, call by call. *)

Example sample_unique_hash_rejected :
  let h := "{hash:null,height:0,body:{data:Genesis Block},time:1700000000,previousBlockHash:null}" in
  filter (hash_is h) (chain (self sample_world)) = [genesis_block (getTime 0)]
  /\ getBlockByHash (self sample_world) h
     = Rejected "Blockchain countains more than one block with the same hash value".
Proof. split; reflexivity. Qed.

Example sample_unknown_hash_rejected :
  filter (hash_is "no such hash") (chain (self sample_world)) = []
  /\ getBlockByHash (self sample_world) "no such hash"
     = Rejected "Blockchain countains more than one block with the same hash value".
Proof. split; reflexivity. Qed.

Example sample_stars_at_resolve :
  at_resolve (getStarsByWalletAddress (self sample_world) test_address) = []
  /\ stars_eventually test_address
       (getStarsByWalletAddress (self sample_world) test_address)
     = [StarObject test_address test_star].
Proof. split; reflexivity. Qed.

Example sample_challenge :
  fst (requestMessageOwnershipVerification alice sample_world)
  = Resolved "${address}:${new Date().getTime().toString().slice(0, -3)}:starRegistry"
  /\ challenge_format alice 1700000003
     = "1AliceXXXXXXXXXXXXXXXXXXXXXXXXXXXXX:1700000003:starRegistry".
Proof. split; reflexivity. Qed.

Example sample_validateChain_own_chain :
  at_resolve (validateChain (self sample_world))
  = [Inconsistent "Hash value of previous block not consistent with block "
                  "Number.prototype.toString"]
  /\ pending (validateChain (self sample_world)) = [Resolved true; Resolved true].
Proof. split; reflexivity. Qed.

Example sample_third_block_linked :
  map (@BlockClass.previousBlockHash _)
      (chain (self (snd (submitStar alice "m" "sig:1AliceXXXXXXXXXXXXXXXXXXXXXXXXXXXXX:m"
                                    a_star sample_world))))
  = [None; None; BlockClass.hash sample_star_block].
Proof. reflexivity. Qed.

Example sample_refusing_verifier :
  self (@constructor _ strict 0) = mkBlockchain [genesis_block (getTime 0)] 0.
Proof. reflexivity. Qed.

Example sample_malformed_signature :
  fst (submitStar alice "m" "" a_star sample_world) = Rejected "Invalid signature length"
  /\ self (snd (submitStar alice "m" "" a_star sample_world)) = self sample_world.
Proof. split; reflexivity. Qed.

(** The further properties on the sample world. *)

Lemma addBlock_commits_last_witness :
  built sample_world
  /\ exists b,
      _addBlock (BlockClass.new_Block (StarObject alice a_star)) sample_world
      = (Resolved b,
         mkWorld (mkBlockchain (chain (self sample_world) ++ [b])
                               (Z.of_nat (List.length (chain (self sample_world)))))
                 (S (readings sample_world)))
      /\ BlockClass.height b = Z.of_nat (List.length (chain (self sample_world)))
      /\ BlockClass.body b
         = BlockClass.body (BlockClass.new_Block (StarObject alice a_star))
      /\ BlockClass.time b = seconds_string (getTime (readings sample_world)).
Proof.
  assert (Hb : built sample_world) by apply constructor_built.
  exact (conj Hb (@addBlock_commits_last _ _
                    (BlockClass.new_Block (StarObject alice a_star)) sample_world Hb)).
Defined.

Lemma overlap_world_held : held overlap_world.
Proof.
  exists 0%nat. change (mkLoop overlap_world []) with overlap_loop.
  unfold overlap_loop.
  apply over_resume, over_resume, over_submitStar, over_submitStar, over_start.
Qed.

Lemma getChainHeight_within_chain_witness :
  held overlap_world
  /\ exists h,
      getChainHeight (self overlap_world) = Resolved h
      /\ 0 <= h <= Z.of_nat (List.length (chain (self overlap_world))) - 1
      /\ (reachable overlap_world ->
          h = Z.of_nat (List.length (chain (self overlap_world))) - 1).
Proof.
  exact (conj overlap_world_held
           (@getChainHeight_within_chain _ _ overlap_world overlap_world_held)).
Defined.

Lemma getBlockByHeight_is_index_witness :
  built sample_world
  /\ getBlockByHeight (self sample_world) 1
     = Resolved (if 0 <=? 1
                 then nth_error (chain (self sample_world)) (Z.to_nat 1)
                 else None).
Proof.
  assert (Hb : built sample_world) by apply constructor_built.
  exact (conj Hb (@getBlockByHeight_is_index _ _ sample_world 1 Hb)).
Defined.

Lemma sample_world3_grown : grown sample_world3.
Proof. apply submitStar_grown, constructor_grown. Qed.

Lemma grown_chain_links_witness :
  grown sample_world3
  /\ nth_error (chain (self sample_world3)) 2 = Some sample_alice_block
  /\ BlockClass.hash sample_alice_block
     = Some (SHA256_JSON (BlockClass.set_hash None sample_alice_block))
  /\ BlockClass.previousBlockHash sample_alice_block
     = if (2 <=? 1)%nat then None
       else hash_before None (chain (self sample_world3)) 2.
Proof.
  assert (Hn : nth_error (chain (self sample_world3)) 2 = Some sample_alice_block)
    by reflexivity.
  exact (conj sample_world3_grown
           (conj Hn (@grown_chain_links _ _ sample_world3 sample_world3_grown
                       2%nat sample_alice_block Hn))).
Defined.

Lemma grown_blocks_validate_witness :
  grown sample_world3
  /\ In sample_alice_block (chain (self sample_world3))
  /\ BlockClass.validate SHA256_JSON sample_alice_block = Resolved true.
Proof.
  assert (Hi : In sample_alice_block (chain (self sample_world3)))
    by (right; right; left; reflexivity).
  exact (conj sample_world3_grown
           (conj Hi (@grown_blocks_validate _ _ sample_world3 sample_alice_block
                       sample_world3_grown Hi))).
Defined.

Lemma validateChain_on_grown_chain_witness :
  grown sample_world3
  /\ at_resolve (validateChain (self sample_world3))
     = (if (2 <=? List.length (chain (self sample_world3)))%nat
        then [broken_link] else [])
  /\ errorLog_eventually (validateChain (self sample_world3))
     = at_resolve (validateChain (self sample_world3)).
Proof.
  exact (conj sample_world3_grown
           (@validateChain_on_grown_chain _ _ sample_world3 sample_world3_grown)).
Defined.

Lemma genesis_stays_first_witness :
  reachable sample_world3
  /\ exists g,
      nth_error (chain (self sample_world3)) 0 = Some g
      /\ BlockClass.height g = 0
      /\ BlockClass.previousBlockHash g = None
      /\ BlockClass.getBData g = Resolved (DataObject "Genesis Block").
Proof.
  assert (Hr : reachable sample_world3)
    by apply reach_submitStar, reach_constructor.
  exact (conj Hr (@genesis_stays_first _ _ sample_world3 Hr)).
Defined.

Lemma submitStar_block_witness :
  held overlap_world
  /\ fst (submitStar bob "m" bob_signature a_star overlap_world)
     = Resolved sample_bob_block
  /\ verify "m" bob bob_signature = Resolved true
  /\ at_minus1 (chain (self (snd (submitStar bob "m" bob_signature a_star
                                             overlap_world))))
     = Some sample_bob_block
  /\ BlockClass.height sample_bob_block = height (self overlap_world) + 1
  /\ height (self (snd (submitStar bob "m" bob_signature a_star overlap_world)))
     = BlockClass.height sample_bob_block
  /\ BlockClass.time sample_bob_block
     = seconds_string (getTime (S (readings overlap_world)))
  /\ BlockClass.getBData sample_bob_block = Resolved (StarObject bob a_star)
  /\ (reachable overlap_world ->
      BlockClass.height sample_bob_block
      = Z.of_nat (List.length (chain (self overlap_world)))).
Proof.
  assert (Hb : fst (submitStar bob "m" bob_signature a_star overlap_world)
               = Resolved sample_bob_block) by reflexivity.
  exact (conj overlap_world_held
           (conj Hb (@submitStar_block _ _ bob "m" bob_signature a_star
                       overlap_world sample_bob_block overlap_world_held Hb))).
Defined.

Lemma submitted_block_is_found_witness :
  reachable sample_world
  /\ fst (submitStar alice "m" alice_signature a_star sample_world)
     = Resolved sample_alice_block
  /\ getBlockByHeight (self sample_world3) (BlockClass.height sample_alice_block)
     = Resolved (Some sample_alice_block)
  /\ getChainHeight (self sample_world3)
     = Resolved (BlockClass.height sample_alice_block).
Proof.
  assert (Hr : reachable sample_world) by apply reach_constructor.
  assert (Hb : fst (submitStar alice "m" alice_signature a_star sample_world)
               = Resolved sample_alice_block) by reflexivity.
  exact (conj Hr (conj Hb (@submitted_block_is_found _ _ alice "m" alice_signature
                             a_star sample_world sample_alice_block Hr Hb))).
Defined.

Lemma submitted_star_is_listed_witness :
  reachable sample_world
  /\ fst (submitStar alice "m" alice_signature a_star sample_world)
     = Resolved sample_alice_block
  /\ stars_eventually alice (getStarsByWalletAddress (self sample_world3) alice)
     = stars_eventually alice (getStarsByWalletAddress (self sample_world) alice)
       ++ (if String.eqb alice alice then [StarObject alice a_star] else []).
Proof.
  assert (Hr : reachable sample_world) by apply reach_constructor.
  assert (Hb : fst (submitStar alice "m" alice_signature a_star sample_world)
               = Resolved sample_alice_block) by reflexivity.
  exact (conj Hr (conj Hb (@submitted_star_is_listed _ _ alice "m" alice_signature
                             a_star sample_world sample_alice_block alice Hr Hb))).
Defined.

Lemma test_address_colon_free : colon_free test_address.
Proof.
  unfold colon_free. cbn. intros Hin.
  repeat (destruct Hin as [Hin | Hin]; [discriminate Hin|]). exact Hin.
Defined.

Lemma time_message_reads_format_witness :
  colon_free test_address
  /\ (1641555438 < 2 ^ 53)%N
  /\ time_message (challenge_format test_address 1641555438) = Some (Z.of_N 1641555438).
Proof.
  assert (Ht : (1641555438 < 2 ^ 53)%N) by reflexivity.
  exact (conj test_address_colon_free
           (conj Ht (@time_message_reads_format test_address 1641555438%N
                       test_address_colon_free Ht))).
Defined.

Lemma elapsed_time_of_format_witness :
  colon_free test_address
  /\ (1641555438 < 2 ^ 53)%N
  /\ (1000 <= 1700000003000 < 2 ^ 53)%N
  /\ elapsed_time (challenge_format test_address 1641555438) 1700000003000
     = Some (Z.of_N (1700000003000 / 1000) - Z.of_N 1641555438).
Proof.
  assert (Ht0 : (1641555438 < 2 ^ 53)%N) by reflexivity.
  assert (Ht : (1000 <= 1700000003000 < 2 ^ 53)%N)
    by (split; [intros E; discriminate E | reflexivity]).
  exact (conj test_address_colon_free
           (conj Ht0 (conj Ht (@elapsed_time_of_format test_address 1641555438%N
                                 1700000003000%N test_address_colon_free Ht0 Ht)))).
Defined.

(** Appends that overlap on the sample world. *)



Example overlap_heights :
  map (@BlockClass.height _) (chain (self overlap_world)) = [0; 1; 2; 2]
  /\ height (self overlap_world) = 2
  /\ waiting overlap_loop = []
  /\ getBlockByHeight (self overlap_world) 3 = Resolved None
  /\ at_resolve (validateChain (self overlap_world)) = [broken_link; broken_link].
Proof. repeat split; reflexivity. Qed.
